(** * tsinspector: a shallow embedding of [src/tsinspector.py]

    The module defines one class, [Inspector], which walks a directory
    tree, stats every directory and file, and records in three
    dictionaries (created / accessed / modified) the entries whose
    timestamp lies inside a time window, touching every parent path on
    the way up.

    Conventions of the embedding:
    - Python [str] is [string]; dictionaries are [gmap string _];
    - timestamps and the window bounds are Python numbers, modelled as [Z];
    - [os.path] is [posixpath] (separator ["/"]); [dirname] and [join] are
      transcribed from the CPython library;
    - the [while] loop of [_propagate] is modelled with fuel, [None]
      meaning that the loop is still running when the fuel is used up;
    - exceptions and the mutable class-level dictionaries are threaded
      explicitly through a small state-and-exception monad. *)

From Stdlib Require Import ZArith String Ascii List Lia Bool.
From stdpp Require Import base option gmap strings list fin_maps.

Local Open Scope string_scope.
Local Open Scope Z_scope.

(* ===================================================================== *)
(** ** Python strings and [posixpath]                                     *)
(* ===================================================================== *)

Module PosixPath.

(** [os.path.sep] *)
Definition sep : ascii := "/"%char.
Definition sep_s : string := "/".

Definition is_sep (c : ascii) : bool := Ascii.eqb c sep.

(** [l.rfind(sep) + 1]: one more than the index of the last separator of
    [l], and 0 when [l] holds none. *)
Fixpoint rfind_sep_succ (l : list ascii) : nat :=
  match l with
  | [] => O
  | c :: l' =>
      match rfind_sep_succ l' with
      | O => if is_sep c then 1%nat else O
      | S i => S (S i)
      end
  end.

(** Drop the leading run of separators of a character list. *)
Fixpoint lstrip_sep (l : list ascii) : list ascii :=
  match l with
  | c :: l' => if is_sep c then lstrip_sep l' else l
  | [] => []
  end.

(** [l.rstrip(sep)] *)
Definition rstrip_sep (l : list ascii) : list ascii :=
  rev (lstrip_sep (rev l)).

(** [l == sep * len(l)] *)
Definition all_sep (l : list ascii) : bool := forallb is_sep l.

(** [posixpath.dirname]:
<<
    i = p.rfind(sep) + 1
    head = p[:i]
    if head and head != sep*len(head):
        head = head.rstrip(sep)
    return head
>> *)
Definition dirname (p : string) : string :=
  let l := list_ascii_of_string p in
  let i := rfind_sep_succ l in
  let head := take i l in
  let head :=
    match head with
    | [] => head
    | _ :: _ => if negb (all_sep head) then rstrip_sep head else head
    end in
  string_of_list_ascii head.

(** The same function read from the end of the text, for the proofs:
    [skip_to_sep] drops characters up to, and excluding, the first
    separator, so that [rev (skip_to_sep (rev l))] is [l[:i]] above. *)
Fixpoint skip_to_sep (l : list ascii) : list ascii :=
  match l with
  | c :: l' => if is_sep c then l else skip_to_sep l'
  | [] => []
  end.

Definition dirname_rev (r : list ascii) : list ascii :=
  let head := skip_to_sep r in
  match head with
  | [] => head
  | _ :: _ => if negb (all_sep head) then lstrip_sep head else head
  end.

(** Does a character list begin with the separator? *)
Definition hd_is_sep (l : list ascii) : bool :=
  match l with
  | c :: _ => is_sep c
  | [] => false
  end.

(** [p.startswith(sep)] and [p.endswith(sep)] *)
Definition startswith_sep (p : string) : bool :=
  hd_is_sep (list_ascii_of_string p).

Definition endswith_sep (p : string) : bool :=
  hd_is_sep (rev (list_ascii_of_string p)).

(** [posixpath.join(a, b)] for two components:
<<
    if b.startswith(sep):            path = b
    elif not path or path.endswith(sep): path += b
    else:                            path += sep + b
>> *)
Definition join (a b : string) : string :=
  if startswith_sep b then b
  else if (String.eqb a "" || endswith_sep a)%bool then a +:+ b
  else a +:+ sep_s +:+ b.

End PosixPath.

Import PosixPath.

(* ===================================================================== *)
(** ** [Inspector._propagate]                                             *)
(* ===================================================================== *)

(** An aggregate dictionary: path -> timestamp. *)
Abbreviation dict := (gmap string Z).

(** [dest.get(path, -1)] *)
Definition dict_get (dest : dict) (path : string) (dflt : Z) : Z :=
  default dflt (dest !! path).

(**
<<
    def _propagate(self, dest, path, stamp, dirname=os.path.dirname):
        while path != "":
            oldval = dest.get(path, -1)
            if stamp < oldval:
                return
            dest[path] = stamp
            path = dirname(path)
>>
    [dest] is mutated in place; the embedding returns the dictionary as
    it is when the call returns, and [None] when [fuel] iterations were
    not enough to leave the loop. *)
Fixpoint _propagate_with (dirname : string -> string)
    (fuel : nat) (dest : dict) (path : string) (stamp : Z) : option dict :=
  match fuel with
  | O => None
  | S fuel' =>
      if String.eqb path "" then Some dest
      else
        let oldval := dict_get dest path (-1) in
        if stamp <? oldval then Some dest
        else _propagate_with dirname fuel' (<[path := stamp]> dest) (dirname path) stamp
  end.

(** The method with its default argument [dirname=os.path.dirname]. *)
Definition _propagate : nat -> dict -> string -> Z -> option dict :=
  _propagate_with PosixPath.dirname.

(* ===================================================================== *)
(** ** Exceptions, stat results, the heap                                  *)
(* ===================================================================== *)

(** The exceptions that the module raises or lets through.  The module
    never binds or imports the name [ArgumentError] that lines 45 and 49
    use, so evaluating [ArgumentError(...)] there raises [NameError] before
    any exception object is built.  [OSError] stands for any failure of
    [os.stat] that is neither a [PermissionError] nor a
    [FileNotFoundError]. *)
Inductive exn : Type :=
  | ValueError (msg : string)
  | NameError (msg : string)
  | TypeError (msg : string)
  | PermissionError
  | FileNotFoundError
  | OSError.

(** The three fields of [os.stat_result] that the module reads. *)
Record stat_result : Type := mk_stat {
  st_ctime : Z;
  st_atime : Z;
  st_mtime : Z
}.

(** A callback is a Python callable; calling it is recorded as an event. *)
Inductive callable : Type := Callable (name : string).

Inductive event : Type :=
  | Called (f : callable) (fullpath : string) (arg : exn + stat_result).

(** The mutable objects the methods work on.  Lines 11-14 bind [created],
    [accessed], [modified] and [errors] in the class body, and no method
    ever assigns [self.created] (or the other three), so every
    [self.created] is an attribute lookup that falls through the instance
    to the one dictionary held by the class [Inspector].  The heap
    therefore holds these four dictionaries once, next to the log of
    callback calls. *)
Record Heap : Type := mk_heap {
  Inspector_created  : dict;
  Inspector_accessed : dict;
  Inspector_modified : dict;
  Inspector_errors   : gmap string exn;
  calls              : list event
}.

(** The heap right after the module has been loaded. *)
Definition module_loaded : Heap := mk_heap ∅ ∅ ∅ ∅ [].

(** What [__init__] stores on an instance. *)
Record Inspector : Type := mk_inspector {
  topdir    : string;
  start     : Z;
  end_      : Z;
  matchesCb : option callable;
  errorCb   : option callable
}.

(** The three aggregate dictionaries, by kind of timestamp. *)
Inductive kind : Type := Created | Accessed | Modified.

(** [self.created], [self.accessed], [self.modified]: the lookup ignores
    the instance (see [Heap]). *)
Definition self_dict (self : Inspector) (k : kind) (h : Heap) : dict :=
  match k with
  | Created  => Inspector_created h
  | Accessed => Inspector_accessed h
  | Modified => Inspector_modified h
  end.

Definition self_errors (self : Inspector) (h : Heap) : gmap string exn :=
  Inspector_errors h.

(** In-place update of one of the aggregate dictionaries. *)
Definition store_dict (k : kind) (d : dict) (h : Heap) : Heap :=
  match k with
  | Created  => mk_heap d (Inspector_accessed h) (Inspector_modified h)
                        (Inspector_errors h) (calls h)
  | Accessed => mk_heap (Inspector_created h) d (Inspector_modified h)
                        (Inspector_errors h) (calls h)
  | Modified => mk_heap (Inspector_created h) (Inspector_accessed h) d
                        (Inspector_errors h) (calls h)
  end.

Definition store_error (fullpath : string) (e : exn) (h : Heap) : Heap :=
  mk_heap (Inspector_created h) (Inspector_accessed h) (Inspector_modified h)
          (<[fullpath := e]> (Inspector_errors h)) (calls h).

Definition log_call (ev : event) (h : Heap) : Heap :=
  mk_heap (Inspector_created h) (Inspector_accessed h) (Inspector_modified h)
          (Inspector_errors h) (calls h ++ [ev]).

Definition stamp_of (k : kind) (st : stat_result) : Z :=
  match k with
  | Created  => st_ctime st
  | Accessed => st_atime st
  | Modified => st_mtime st
  end.

(* ===================================================================== *)
(** ** A state-and-exception monad for the methods                         *)
(* ===================================================================== *)

Inductive result (A : Type) : Type :=
  | Returns (a : A) (h : Heap)     (* normal completion *)
  | Raises (e : exn) (h : Heap)    (* an exception leaves the method *)
  | Running.                       (* a loop has not finished within the fuel *)
Arguments Returns {A} a h.
Arguments Raises {A} e h.
Arguments Running {A}.

Definition M (A : Type) : Type := Heap -> result A.

Definition ret {A} (a : A) : M A := fun h => Returns a h.

Definition bind {A B} (f : A -> M B) (m : M A) : M B :=
  fun h =>
    match m h with
    | Returns a h' => f a h'
    | Raises e h' => Raises e h'
    | Running => Running
    end.

#[global] Instance M_ret : MRet M := @ret.
#[global] Instance M_bind : MBind M := @bind.

Definition raise {A} (e : exn) : M A := fun h => Raises e h.

Definition update (f : Heap -> Heap) : M unit := fun h => Returns tt (f h).

(** [for x in xs: body(x)] *)
Fixpoint for_each {A} (xs : list A) (body : A -> M unit) : M unit :=
  match xs with
  | [] => ret tt
  | x :: xs' => body x ;; for_each xs' body
  end.

(** Truth value of a Python number. *)
Definition truthy (z : Z) : bool := negb (z =? 0).

(* ===================================================================== *)
(** ** [Inspector.__init__]                                                *)
(* ===================================================================== *)

(** Lines 40-50: the window arguments, each [None] or a number.
<<
        if start is not None and end is not None:
            pass
        elif start is not None:
            if window is None:
                raise ArgumentError("start requires end or window")
            end = start + window
        else:
            if window is None:
                raise ArgumentError("end requires start or window")
            start = end - window
>>
    [ArgumentError] is not bound in the module: the two [raise] statements
    end in [NameError].  In the last line [end] may still be [None];
    [None - window] raises [TypeError]. *)
Definition resolve_window (start end_ window : option Z) : exn + (Z * Z) :=
  match start, end_ with
  | Some s, Some e => inr (s, e)
  | Some s, None =>
      match window with
      | None => inl (NameError "name 'ArgumentError' is not defined")
      | Some w => inr (s, s + w)
      end
  | None, _ =>
      match window with
      | None => inl (NameError "name 'ArgumentError' is not defined")
      | Some w =>
          match end_ with
          | Some e => inr (e - w, e)
          | None => inl (TypeError "unsupported operand type(s) for -: 'NoneType' and 'int'")
          end
      end
  end.

(** Lines 36-59.  [exists_] is [os.path.exists].
<<
        self.start = min(start, end)
        self.end   = max(start, end)

        self.start, self.end = start, end
>> *)
Definition __init__ (exists_ : string -> bool)
    (topdir : string) (start end_ window : option Z)
    (report_matches report_errors : option callable) : exn + Inspector :=
  if negb (exists_ topdir)
  then inl (ValueError ("topdir '" +:+ topdir +:+ "' does not exist."))
  else
    match resolve_window start end_ window with
    | inl e => inl e
    | inr (start, end_) =>
        let self_start := Z.min start end_ in
        let self_end   := Z.max start end_ in
        let '(self_start, self_end) := (start, end_) in
        inr (mk_inspector topdir self_start self_end report_matches report_errors)
    end.

(* ===================================================================== *)
(** ** [Inspector._stat] and [Inspector._check]                            *)
(* ===================================================================== *)

(** The outcome of [os.stat]: an exception or a [stat_result]. *)
Definition statfun : Type := string -> exn + stat_result.

(** [_stat(self, path, statfn=os.stat)]: returns [statfn(path)]; the task
    wrapped around it is awaited at once, so an exception of [statfn]
    surfaces at the [yield from] of the caller. *)
Definition _stat (statfn : statfun) (path : string) : exn + stat_result :=
  statfn path.

(** [except (PermissionError, FileNotFoundError) as e] *)
Definition caught (e : exn) : bool :=
  match e with
  | PermissionError | FileNotFoundError => true
  | _ => false
  end.

(** [start < t < end] *)
Definition in_window (self : Inspector) (t : Z) : bool :=
  (start self <? t) && (t <? end_ self).

(** [propagate(self.<kind>, path, stamp)]: the dictionary is updated in
    place. *)
Definition propagate (self : Inspector) (fuel : nat)
    (k : kind) (path : string) (stamp : Z) : M unit :=
  fun h =>
    match _propagate fuel (self_dict self k h) path stamp with
    | Some d => Returns tt (store_dict k d h)
    | None => Running
    end.

(** Lines 108-117: the three window tests of one entry; the value is the
    local variable [candidate] as line 119 finds it.
<<
            candidate = 0
            if start < st.st_ctime < end:
                propagate(self.created, path, st.st_ctime)
                candidate = st.st_ctime
            if start < st.st_atime < end:
                propagate(self.accessed, path, st.st_atime)
                candidate = st.st_atime if not candidate else candidate
            if start < st.st_mtime < end:
                propagate(self.modified, path, st.st_mtime)
                candidate = st.st_mtime if not candidate else candidate
>> *)
Definition _check_stamps (self : Inspector) (fuel : nat)
    (path : string) (st : stat_result) : M Z :=
  let candidate := 0 in
  candidate ←
    (if in_window self (st_ctime st)
     then propagate self fuel Created path (st_ctime st) ;;
          ret (st_ctime st)
     else ret candidate) ;
  candidate ←
    (if in_window self (st_atime st)
     then propagate self fuel Accessed path (st_atime st) ;;
          ret (if negb (truthy candidate) then st_atime st else candidate)
     else ret candidate) ;
  candidate ←
    (if in_window self (st_mtime st)
     then propagate self fuel Modified path (st_mtime st) ;;
          ret (if negb (truthy candidate) then st_mtime st else candidate)
     else ret candidate) ;
  ret candidate.

(** One iteration of the loop of [_check] (lines 98-120).
<<
            fullpath = addPfx(path)
            try:
                st = yield from asyncio.async(stat(fullpath))
            except (PermissionError, FileNotFoundError) as e:
                self.errors[fullpath] = e
                if errorCb: self.errorCb(fullpath, e)
                continue
            ...
            if candidate and matchCb:
                matchCb(fullpath, st)
>> *)
Definition _check_entry (self : Inspector) (statfn : statfun) (fuel : nat)
    (path : string) : M unit :=
  let fullpath := topdir self +:+ path in
  match _stat statfn fullpath with
  | inl e =>
      if caught e then
        update (store_error fullpath e) ;;
        match errorCb self with
        | Some cb => update (log_call (Called cb fullpath (inl e)))
        | None => ret tt
        end
      else raise e
  | inr st =>
      candidate ← _check_stamps self fuel path st ;
      match truthy candidate, matchesCb self with
      | true, Some cb => update (log_call (Called cb fullpath (inr st)))
      | _, _ => ret tt
      end
  end.

(** [_check(self, paths)] *)
Definition _check (self : Inspector) (statfn : statfun) (fuel : nat)
    (paths : list string) : M unit :=
  for_each paths (_check_entry self statfn fuel).

(* ===================================================================== *)
(** ** [os.walk] and [Inspector.inspect]                                   *)
(* ===================================================================== *)

(** A directory as [os.walk] sees it: its sub-directories, by name, and
    the names of its other entries. *)
#[local] Set Warnings "-register-all".
Inductive tree : Type :=
  | Dir (dirs : list (string * tree)) (files : list string).

(** [os.walk(top)], top-down: the triple for [top], then the walk of
    every sub-directory [join(top, name)]. *)
Fixpoint walk (top : string) (t : tree)
    : list (string * list string * list string) :=
  match t with
  | Dir dirs files =>
      (top, map fst dirs, files)
        :: flat_map (fun d => walk (join top (fst d)) (snd d)) dirs
  end.

(** [s[n:]] *)
Fixpoint str_from (n : nat) (s : string) : string :=
  match n, s with
  | O, _ => s
  | S n', String _ s' => str_from n' s'
  | S _, EmptyString => EmptyString
  end.

(** Lines 132-139.
<<
        topdirLen = len(self.topdir)
        for root, dirs, files in os.walk(self.topdir):
            root = root[topdirLen:] + os.path.sep
            yield from check([root])
            if files:
                yield from check(map(root.__add__, files))
>> *)
Definition inspect (self : Inspector) (fs : tree) (statfn : statfun)
    (fuel : nat) : M unit :=
  let topdirLen := String.length (topdir self) in
  for_each (walk (topdir self) fs) (fun '(root, dirs, files) =>
    let root := str_from topdirLen root +:+ sep_s in
    _check self statfn fuel [root] ;;
    match files with
    | [] => ret tt
    | _ :: _ => _check self statfn fuel (map (String.append root) files)
    end).

(** The relative paths that [inspect] hands to [_check], in order. *)
Definition checked_paths (topdir : string) (fs : tree) : list string :=
  flat_map (fun '(root, dirs, files) =>
              let root := str_from (String.length topdir) root +:+ sep_s in
              root :: map (String.append root) files)
           (walk topdir fs).

(* ===================================================================== *)
(** ** Sequences of calls, parents and ancestors                           *)
(* ===================================================================== *)

(** A sequence of [propagate] calls on one dictionary. *)
Fixpoint propagate_all (fuel : nat) (cs : list (string * Z)) (dest : dict)
    : option dict :=
  match cs with
  | [] => Some dest
  | (path, stamp) :: cs' =>
      match _propagate fuel dest path stamp with
      | Some dest' => propagate_all fuel cs' dest'
      | None => None
      end
  end.

(** [a] is an ancestor of [p]: it is reached from [p] by taking the parent
    path ([dirname]) one or more times, as the loop of [_propagate] does. *)
Inductive ancestor : string -> string -> Prop :=
  | ancestor_parent p : ancestor (dirname p) p
  | ancestor_up a p : ancestor a (dirname p) -> ancestor a p.

(** An ancestor directory of [p] in the words of the design, where a
    directory is written with a trailing separator: [a] is an ancestor of
    [p], or it is an ancestor of [p] followed by the separator, the form
    under which the walk yields a directory (the top directory being the
    separator alone). *)
Definition ancestor_directory (a p : string) : Prop :=
  ancestor a p \/ exists d, ancestor d p /\ a = d +:+ sep_s.

(* ===================================================================== *)
(** ** The first matching kind, in the words of the design                 *)
(* ===================================================================== *)

(** The timestamp of the first kind, in the order created, accessed,
    modified, that lies inside the window; [None] when no kind does.
    [_check_stamps] is compared with this definition below. *)
Definition first_match (self : Inspector) (st : stat_result) : option Z :=
  if in_window self (st_ctime st) then Some (st_ctime st)
  else if in_window self (st_atime st) then Some (st_atime st)
  else if in_window self (st_mtime st) then Some (st_mtime st)
  else None.

(* ===================================================================== *)
(** ** Notions used to state further properties                            *)
(* ===================================================================== *)

(** No sub-directory name of the tree begins with the separator (a name
    in a file system holds no separator at all). *)
Fixpoint dir_names_relative (t : tree) : bool :=
  match t with
  | Dir dirs files =>
      forallb (fun d => negb (startswith_sep (fst d))
                        && dir_names_relative (snd d)) dirs
  end.

(** The heap that a method leaves behind when it returns or raises;
    [None] while it is still running. *)
Definition final_heap {A} (r : result A) : option Heap :=
  match r with
  | Returns _ h => Some h
  | Raises _ h => Some h
  | Running => None
  end.

(** A logged callback call, measured against the scan that made it: the
    path is [topdir + path] for one of the checked paths, the argument is
    what [statfn] gives for it, the error callback receives an exception
    that the [except] clause catches, and the match callback a stat result
    with at least one stamp inside the window. *)
Definition call_is_justified (self : Inspector) (statfn : statfun)
    (paths : list string) (ev : event) : Prop :=
  match ev with
  | Called cb fullpath arg =>
      (exists path, path ∈ paths /\ fullpath = topdir self +:+ path)
      /\ statfn fullpath = arg
      /\ match arg with
         | inl e => errorCb self = Some cb /\ caught e = true
         | inr st => matchesCb self = Some cb /\ is_Some (first_match self st)
         end
  end.

(* ===================================================================== *)
(** ** Small file systems used in the examples                             *)
(* ===================================================================== *)

Module Examples.

(** [os.path.exists] of a file system where every path exists. *)
Definition exists_all : string -> bool := fun _ => true.

(** [os.stat] given by a table; a path outside the table does not
    exist. *)
Fixpoint table_stat (tbl : list (string * (exn + stat_result))) : statfun :=
  fun path =>
    match tbl with
    | [] => inl FileNotFoundError
    | (p, r) :: tbl' => if String.eqb p path then r else table_stat tbl' path
    end.

(** [/r] holds one directory [a] with the two files [f] and [g]. *)
Definition tree_r : tree := Dir [("a", Dir [] ["f"; "g"])] [].

Definition old : stat_result := mk_stat 100 100 100.

(** [a] was created at 5 and [a/f] at 7; [a/g] is gone when it is
    probed. *)
Definition stat_plain : statfun :=
  table_stat [ ("/r//", inr old);
               ("/r/a/", inr (mk_stat 5 100 100));
               ("/r/a/f", inr (mk_stat 7 100 100)) ].

(** The probe of [a] is refused, the probe of [a/f] fails with an error
    of another kind. *)
Definition stat_refused_then_oserror : statfun :=
  table_stat [ ("/r//", inr old);
               ("/r/a/", inl PermissionError);
               ("/r/a/f", inl OSError);
               ("/r/a/g", inr (mk_stat 7 100 100)) ].

(** Entries stamped with the epoch itself. *)
Definition stat_epoch : statfun :=
  table_stat [ ("/r//", inr old);
               ("/r/a/", inr old);
               ("/r/a/f", inr (mk_stat 100 100 0));
               ("/r/a/g", inr (mk_stat 0 3 100)) ].

(** The top directory itself was created inside the window. *)
Definition stat_top : statfun :=
  table_stat [ ("/r/", inr (mk_stat 5 100 100)) ].

Definition on_match : callable := Callable "report_matches".
Definition on_error : callable := Callable "report_errors".

End Examples.

(* ===================================================================== *)
(** ** Facts about [_propagate]                                            *)
(* ===================================================================== *)

Section Propagate.

Implicit Types (dest : dict) (path : string) (stamp : Z) (fuel : nat).

(** One turn of the loop. *)
Lemma propagate_unfold fuel dest path stamp :
  _propagate (S fuel) dest path stamp =
    if String.eqb path "" then Some dest
    else if stamp <? dict_get dest path (-1) then Some dest
    else _propagate fuel (<[path := stamp]> dest) (dirname path) stamp.
Proof. reflexivity. Qed.

Lemma propagate_no_fuel dest path stamp : _propagate 0 dest path stamp = None.
Proof. reflexivity. Qed.

(** Case analysis on one turn of the loop: the root is reached, the
    early exit fires, or the stamp is written and the loop goes on. *)
Lemma propagate_inv fuel dest path stamp dest' :
  _propagate (S fuel) dest path stamp = Some dest' ->
  (path = "" /\ dest' = dest)
  \/ (path <> "" /\ stamp < dict_get dest path (-1) /\ dest' = dest)
  \/ (path <> "" /\ dict_get dest path (-1) <= stamp
      /\ _propagate fuel (<[path := stamp]> dest) (dirname path) stamp = Some dest').
Proof.
  rewrite propagate_unfold.
  destruct (String.eqb_spec path "") as [-> | Hne].
  - intros [= <-]. by left.
  - destruct (Z.ltb_spec stamp (dict_get dest path (-1))) as [Hlt | Hge].
    + intros [= <-]. right; left. done.
    + intros Hrec. right; right. done.
Qed.

(** More fuel does not change a call that returns. *)
Lemma propagate_fuel_mono fuel fuel' dest path stamp dest' :
  (fuel <= fuel')%nat ->
  _propagate fuel dest path stamp = Some dest' ->
  _propagate fuel' dest path stamp = Some dest'.
Proof.
  revert fuel' dest path.
  induction fuel as [| fuel IH]; intros fuel' dest path Hle H; [done |].
  destruct fuel' as [| fuel']; [lia |].
  rewrite propagate_unfold in *.
  destruct (String.eqb path ""); [done |].
  destruct (stamp <? dict_get dest path (-1)); [done |].
  apply IH; [lia | done].
Qed.

(** A call only ever writes [stamp]: an entry that already holds [stamp]
    keeps it. *)
Lemma propagate_keeps_stamp fuel dest path stamp dest' q :
  _propagate fuel dest path stamp = Some dest' ->
  dest !! q = Some stamp ->
  dest' !! q = Some stamp.
Proof.
  revert dest path.
  induction fuel as [| fuel IH]; intros dest path H Hq; [done |].
  apply propagate_inv in H as [[_ ->] | [(_ & _ & ->) | (_ & _ & Hrec)]];
    [done | done |].
  apply (IH _ _ Hrec).
  destruct (decide (path = q)) as [-> | Hne].
  - by rewrite lookup_insert_eq.
  - by rewrite lookup_insert_ne.
Qed.

End Propagate.

(* ===================================================================== *)
(** ** The monotonic-max invariant                                         *)
(* ===================================================================== *)

Section Invariant.

Implicit Types (m dest : dict) (path : string) (stamp : Z).

(** The local form of the invariant: the root key is never written, no
    stored value is below the sentinel, and every entry's parent is the
    root or holds a value that is at least as large. *)
Record parent_closed (m : dict) : Prop := {
  pc_root : m !! "" = None;
  pc_sentinel : forall p v, m !! p = Some v -> -1 <= v;
  pc_parent : forall p v, m !! p = Some v ->
    dirname p = "" \/ exists v', m !! dirname p = Some v' /\ v <= v'
}.

(** The same while the loop is at [path]: entries just below [path] that
    hold at most [stamp] are waiting for [path] to be written. *)
Record parent_closed_upto (path : string) (stamp : Z) (m : dict) : Prop := {
  pu_root : m !! "" = None;
  pu_sentinel : forall p v, m !! p = Some v -> -1 <= v;
  pu_parent : forall p v, m !! p = Some v ->
    dirname p = ""
    \/ (exists v', m !! dirname p = Some v' /\ v <= v')
    \/ (dirname p = path /\ v <= stamp)
}.

Lemma parent_closed_empty : parent_closed ∅.
Proof. split; intros *; rewrite ?lookup_empty; done. Qed.

Lemma parent_closed_enter path stamp m :
  parent_closed m -> parent_closed_upto path stamp m.
Proof.
  intros [Hr Hs Hp]. split; [done | done |].
  intros p v Hpv. destruct (Hp p v Hpv) as [? | ?]; auto.
Qed.

Lemma dict_get_sentinel m path :
  (forall p v, m !! p = Some v -> -1 <= v) -> -1 <= dict_get m path (-1).
Proof.
  intros Hs. unfold dict_get.
  destruct (m !! path) as [v |] eqn:E; simpl; [by eapply Hs | lia].
Qed.

(** The loop re-establishes the invariant when it returns. *)
Lemma propagate_loop_invariant fuel :
  forall m path stamp m',
    parent_closed_upto path stamp m ->
    _propagate fuel m path stamp = Some m' ->
    parent_closed m'.
Proof.
  induction fuel as [| fuel IH]; intros m path stamp m' Hinv H; [done |].
  destruct Hinv as [Hr Hs Hp].
  apply propagate_inv in H as [[-> ->] | [(Hne & Hlt & ->) | (Hne & Hge & Hrec)]].
  - (* the root is reached *)
    split; [done | done |].
    intros p v Hpv. destruct (Hp p v Hpv) as [? | [? | [? _]]]; auto.
  - (* early exit *)
    split; [done | done |].
    intros p v Hpv. destruct (Hp p v Hpv) as [? | [? | [Hd Hv]]]; auto.
    right. unfold dict_get in Hlt.
    destruct (m !! path) as [old |] eqn:E; simpl in Hlt.
    + exists old. rewrite Hd. split; [done | lia].
    + pose proof (Hs p v Hpv). lia.
  - (* the stamp is written, the loop moves to the parent *)
    eapply IH; [| exact Hrec].
    pose proof (dict_get_sentinel m path Hs) as Hold.
    split.
    + by rewrite lookup_insert_ne.
    + intros p v. destruct (decide (path = p)) as [-> | Hpp].
      * rewrite lookup_insert_eq. intros [= <-]. lia.
      * rewrite lookup_insert_ne by done. apply Hs.
    + intros p v. destruct (decide (path = p)) as [-> | Hpp].
      * rewrite lookup_insert_eq. intros [= <-]. right; right. split; [done | lia].
      * rewrite lookup_insert_ne by done. intros Hpv.
        destruct (Hp p v Hpv) as [? | [(v' & Hv' & Hle) | [Hd Hv]]]; [by left | |].
        -- right; left. destruct (decide (path = dirname p)) as [Heq | Hnq].
           ++ exists stamp. rewrite <- Heq, lookup_insert_eq. split; [done |].
              unfold dict_get in Hge. rewrite Heq, Hv' in Hge. simpl in Hge. lia.
           ++ exists v'. by rewrite lookup_insert_ne.
        -- right; left. exists stamp. rewrite Hd, lookup_insert_eq. done.
Qed.

Lemma propagate_parent_closed fuel m path stamp m' :
  parent_closed m ->
  _propagate fuel m path stamp = Some m' ->
  parent_closed m'.
Proof.
  intros Hinv. apply propagate_loop_invariant.
  by apply parent_closed_enter.
Qed.

Lemma propagate_all_parent_closed fuel cs :
  forall m m',
    parent_closed m ->
    propagate_all fuel cs m = Some m' ->
    parent_closed m'.
Proof.
  induction cs as [| [path stamp] cs IH]; intros m m' Hinv H; simpl in H.
  - by injection H as <-.
  - destruct (_propagate fuel m path stamp) as [m1 |] eqn:E; [| done].
    eapply IH; [| exact H].
    by eapply propagate_parent_closed.
Qed.

Lemma ancestor_of_root a p : ancestor a p -> p = "" -> a = "".
Proof. induction 1 as [p | a p _ IH]; intros ->; [done | by apply IH]. Qed.

(** From the local form to all ancestors. *)
Lemma parent_closed_ancestors m a p :
  parent_closed m ->
  ancestor a p ->
  forall vp va, m !! p = Some vp -> m !! a = Some va -> vp <= va.
Proof.
  intros [Hr Hs Hp]. induction 1 as [p | a p Hanc IH]; intros vp va Hvp Hva.
  - destruct (Hp p vp Hvp) as [Hd | (v' & Hv' & Hle)].
    + rewrite Hd, Hr in Hva. done.
    + rewrite Hv' in Hva. injection Hva as <-. done.
  - destruct (Hp p vp Hvp) as [Hd | (v' & Hv' & Hle)].
    + apply ancestor_of_root in Hanc; [| done]. subst a.
      rewrite Hr in Hva. done.
    + pose proof (IH v' va Hv' Hva). lia.
Qed.

End Invariant.

(* ===================================================================== *)
(** ** Facts about [dirname]                                               *)
(* ===================================================================== *)

Section PathFacts.

Local Open Scope list_scope.

Implicit Types (l r : list ascii) (p : string).

Lemma string_length_list p :
  String.length p = length (list_ascii_of_string p).
Proof. induction p as [| c p IH]; simpl; [done | by rewrite IH]. Qed.

Lemma skip_to_sep_suffix r : exists k, r = k ++ skip_to_sep r.
Proof.
  induction r as [| c r [k IH]]; simpl.
  - by exists [].
  - destruct (is_sep c).
    + by exists [].
    + exists (c :: k). simpl. by rewrite <- IH.
Qed.

Lemma lstrip_sep_suffix r : exists k, r = k ++ lstrip_sep r.
Proof.
  induction r as [| c r [k IH]]; simpl.
  - by exists [].
  - destruct (is_sep c).
    + exists (c :: k). simpl. by rewrite <- IH.
    + by exists [].
Qed.

Lemma hd_lstrip_sep r : hd_is_sep (lstrip_sep r) = false.
Proof.
  induction r as [| c r IH]; simpl; [done |].
  destruct (is_sep c) eqn:E; [done | simpl; by rewrite E].
Qed.

Lemma hd_skip_to_sep r : skip_to_sep r <> [] -> hd_is_sep (skip_to_sep r) = true.
Proof.
  induction r as [| c r IH]; simpl; [done |].
  destruct (is_sep c) eqn:E; [by simpl | done].
Qed.

Lemma skip_to_sep_app l1 l2 :
  skip_to_sep (l1 ++ l2) =
    match skip_to_sep l1 with
    | [] => skip_to_sep l2
    | _ :: _ => skip_to_sep l1 ++ l2
    end.
Proof.
  induction l1 as [| c l1 IH]; simpl; [done |].
  destruct (is_sep c); [done | exact IH].
Qed.

Lemma rfind_sep_succ_nil l : rfind_sep_succ l <> O -> l <> [].
Proof. by destruct l. Qed.

(** [l[:l.rfind(sep) + 1]], read from the end. *)
Lemma take_rfind_sep l :
  take (rfind_sep_succ l) l = rev (skip_to_sep (rev l)).
Proof.
  induction l as [| c l IH]; [done |].
  simpl rfind_sep_succ. simpl rev. rewrite skip_to_sep_app.
  destruct (rfind_sep_succ l) as [| i] eqn:E.
  - simpl in IH. symmetry in IH.
    apply (f_equal (@rev _)) in IH. rewrite rev_involutive in IH. simpl in IH.
    rewrite IH. simpl. by destruct (is_sep c).
  - assert (Hl : l <> []) by (apply rfind_sep_succ_nil; by rewrite E).
    destruct l as [| c' l']; [done |].
    change (take (S (S i)) (c :: c' :: l')) with (c :: take (S i) (c' :: l')).
    rewrite IH.
    destruct (skip_to_sep (rev (c' :: l'))) as [| x xs] eqn:Es.
    + simpl in IH. done.
    + rewrite rev_app_distr. done.
Qed.

Lemma all_sep_rev l : all_sep (rev l) = all_sep l.
Proof.
  unfold all_sep. induction l as [| c l IH]; [done |].
  simpl. rewrite forallb_app, IH. simpl. by rewrite andb_true_r, andb_comm.
Qed.

(** [dirname], read from the end of the text. *)
Lemma dirname_as_rev p :
  dirname p
  = string_of_list_ascii (rev (dirname_rev (rev (list_ascii_of_string p)))).
Proof.
  unfold dirname, dirname_rev. f_equal.
  rewrite take_rfind_sep.
  destruct (skip_to_sep (rev (list_ascii_of_string p))) as [| c h]; [done |].
  destruct (rev (c :: h)) as [| c' h'] eqn:E.
  { apply (f_equal (@length _)) in E. rewrite length_rev in E. done. }
  rewrite <- E, all_sep_rev.
  destruct (all_sep (c :: h)); simpl negb; cbv iota; [done |].
  unfold rstrip_sep. by rewrite rev_involutive.
Qed.

(** [dirname] returns a prefix of its argument. *)
Lemma dirname_rev_suffix r : exists k, r = k ++ dirname_rev r.
Proof.
  unfold dirname_rev.
  destruct (skip_to_sep_suffix r) as [k1 H1].
  destruct (skip_to_sep r) as [| c h] eqn:E; [by exists k1 |].
  destruct (negb (all_sep (c :: h))); [| by exists k1].
  destruct (lstrip_sep_suffix (c :: h)) as [k2 H2].
  exists (k1 ++ k2). by rewrite <- app_assoc, <- H2.
Qed.

(** A result that ends with a separator consists of separators only. *)
Lemma dirname_rev_hd_sep r :
  hd_is_sep (dirname_rev r) = true ->
  all_sep (dirname_rev r) = true /\ dirname_rev r <> [].
Proof.
  unfold dirname_rev.
  destruct (skip_to_sep r) as [| c h] eqn:E; [done |].
  destruct (all_sep (c :: h)) eqn:A; simpl negb; cbv iota.
  - by rewrite A.
  - by rewrite hd_lstrip_sep.
Qed.

(** Such a path is its own parent. *)
Lemma dirname_rev_all_sep l :
  all_sep l = true -> l <> [] -> dirname_rev l = l.
Proof.
  destruct l as [| c l]; [done |]. intros A _.
  unfold dirname_rev.
  assert (Hc : is_sep c = true) by (simpl in A; by apply andb_prop in A as [? _]).
  simpl skip_to_sep. rewrite Hc. by rewrite A.
Qed.

Lemma dirname_endswith_sep_fixed p :
  endswith_sep (dirname p) = true -> dirname (dirname p) = dirname p.
Proof.
  unfold endswith_sep. rewrite !dirname_as_rev.
  rewrite !list_ascii_of_string_of_list_ascii, !rev_involutive.
  intros H. apply dirname_rev_hd_sep in H as [A Hne].
  by rewrite dirname_rev_all_sep.
Qed.

Lemma dirname_rev_shorter r :
  r <> [] -> all_sep r = false -> (length (dirname_rev r) < length r)%nat.
Proof.
  intros Hne A. unfold dirname_rev.
  destruct r as [| c r]; [done |].
  simpl skip_to_sep. destruct (is_sep c) eqn:Hc.
  - rewrite A. simpl negb. cbv iota. simpl lstrip_sep. rewrite Hc.
    destruct (lstrip_sep_suffix r) as [k Hk].
    rewrite Hk at 2. simpl. rewrite length_app. lia.
  - destruct (skip_to_sep_suffix r) as [k1 H1].
    assert (length (skip_to_sep r) <= length r)%nat as Hle1.
    { rewrite H1 at 2. rewrite length_app. lia. }
    destruct (skip_to_sep r) as [| c' h] eqn:E; [simpl; lia |].
    destruct (negb (all_sep (c' :: h))); [| simpl in *; lia].
    destruct (lstrip_sep_suffix (c' :: h)) as [k2 H2].
    assert (length (lstrip_sep (c' :: h)) <= length (c' :: h))%nat.
    { rewrite H2 at 2. rewrite length_app. lia. }
    simpl in *. lia.
Qed.

(** A non-empty path that does not begin with a separator has a strictly
    shorter parent, which does not begin with a separator either. *)
Lemma dirname_relative p :
  p <> "" -> startswith_sep p = false ->
  (String.length (dirname p) < String.length p)%nat
  /\ startswith_sep (dirname p) = false.
Proof.
  intros Hne Hs. unfold startswith_sep in *. rewrite !dirname_as_rev.
  rewrite !string_length_list, !list_ascii_of_string_of_list_ascii, length_rev.
  assert (Hl : list_ascii_of_string p <> []).
  { intros E. apply Hne. by rewrite <- (string_of_list_ascii_of_string p), E. }
  destruct (list_ascii_of_string p) as [| c l]; [done |]. simpl in Hs.
  destruct (dirname_rev_suffix (rev (c :: l))) as [k Hk].
  split.
  - rewrite <- (length_rev (c :: l)). apply dirname_rev_shorter.
    + intros E. apply (f_equal (@length _)) in E.
      rewrite length_rev in E. done.
    + simpl. unfold all_sep. rewrite forallb_app. simpl. rewrite Hs.
      by rewrite !andb_false_r.
  - apply (f_equal (@rev _)) in Hk.
    rewrite rev_involutive, rev_app_distr in Hk.
    destruct (rev (dirname_rev (rev (c :: l)))) as [| c' d]; [done |].
    simpl in Hk. injection Hk as <- _. done.
Qed.

Lemma list_ascii_of_string_app a b :
  list_ascii_of_string (a +:+ b)
  = list_ascii_of_string a ++ list_ascii_of_string b.
Proof. induction a as [| c a IH]; simpl; [done | by rewrite IH]. Qed.

(** What the walk yields for a directory, [root + os.path.sep], ends with
    the separator. *)
Lemma endswith_sep_append root : endswith_sep (root +:+ sep_s) = true.
Proof.
  unfold endswith_sep. by rewrite list_ascii_of_string_app, rev_app_distr.
Qed.

Lemma dirname_empty : dirname "" = "".
Proof. reflexivity. Qed.

End PathFacts.

(* ===================================================================== *)
(** ** [_propagate] along the parent chain                                 *)
(* ===================================================================== *)

Section PropagateChain.

Implicit Types (dest : dict) (path key : string) (stamp : Z) (fuel : nat).

(** The loop leaves a path that is its own parent only through the early
    exit: once the stamp is written there, the test [stamp < oldval]
    fails on every later turn. *)
Lemma propagate_fixed_path_diverges fuel :
  forall dest path stamp,
    path <> "" -> dirname path = path ->
    dict_get dest path (-1) <= stamp ->
    _propagate fuel dest path stamp = None.
Proof.
  induction fuel as [| fuel IH]; intros dest path stamp Hne Hfix Hge; [done |].
  rewrite propagate_unfold.
  destruct (String.eqb_spec path "") as [-> | _]; [done |].
  destruct (Z.ltb_spec stamp (dict_get dest path (-1))) as [? | _]; [lia |].
  rewrite Hfix. apply IH; [done | done |].
  unfold dict_get. rewrite lookup_insert_eq. simpl. lia.
Qed.

Lemma propagate_fixed_path_returns fuel dest path stamp dest' :
  path <> "" -> dirname path = path ->
  _propagate fuel dest path stamp = Some dest' ->
  dest' = dest.
Proof.
  intros Hne Hfix H.
  destruct (Z.lt_ge_cases stamp (dict_get dest path (-1))) as [Hlt | Hge].
  - destruct fuel as [| fuel]; [done |].
    apply propagate_inv in H as [[? _] | [(_ & _ & ->) | (_ & ? & _)]];
      [done | done | lia].
  - by rewrite propagate_fixed_path_diverges in H.
Qed.

Lemma endswith_sep_nonempty key : endswith_sep key = true -> key <> "".
Proof. by intros H ->. Qed.

(** A key with a trailing separator is written by no call other than the
    one that starts at this very key. *)
Lemma propagate_frame_trailing_sep fuel :
  forall dest path stamp dest' key,
    _propagate fuel dest path stamp = Some dest' ->
    endswith_sep key = true ->
    key <> path ->
    dest' !! key = dest !! key.
Proof.
  induction fuel as [| fuel IH]; intros dest path stamp dest' key H Hk Hne; [done |].
  apply propagate_inv in H as [[_ ->] | [(_ & _ & ->) | (Hp & _ & Hrec)]];
    [done | done |].
  destruct (decide (key = dirname path)) as [-> | Hnd].
  - apply propagate_fixed_path_returns in Hrec as ->.
    + by rewrite lookup_insert_ne.
    + by apply endswith_sep_nonempty.
    + by apply dirname_endswith_sep_fixed.
  - rewrite (IH _ _ _ _ _ Hrec Hk Hnd). by rewrite lookup_insert_ne.
Qed.

(** From a path that does not begin with a separator the loop reaches the
    empty string, within one turn per character. *)
Lemma propagate_relative_returns fuel :
  forall dest path stamp,
    startswith_sep path = false ->
    (String.length path < fuel)%nat ->
    is_Some (_propagate fuel dest path stamp).
Proof.
  induction fuel as [| fuel IH]; intros dest path stamp Hrel Hlen; [lia |].
  rewrite propagate_unfold.
  destruct (String.eqb_spec path "") as [-> | Hne]; [done |].
  destruct (stamp <? dict_get dest path (-1)); [done |].
  destruct (dirname_relative path Hne Hrel) as [Hlt Hrel'].
  apply IH; [done | lia].
Qed.

End PropagateChain.

(* ===================================================================== *)
(** ** Facts about the monad, [walk] and [inspect]                         *)
(* ===================================================================== *)

Section Scan.

Local Open Scope list_scope.

Lemma bind_unfold {A B} (m : M A) (f : A -> M B) h :
  (m ≫= f) h =
    match m h with
    | Returns a h' => f a h'
    | Raises e h' => Raises e h'
    | Running => Running
    end.
Proof. reflexivity. Qed.

Lemma for_each_cons {A} (x : A) xs body h :
  for_each (x :: xs) body h =
    match body x h with
    | Returns _ h' => for_each xs body h'
    | Raises e h' => Raises e h'
    | Running => Running
    end.
Proof. reflexivity. Qed.

Lemma for_each_app {A} (xs ys : list A) body :
  forall h,
    for_each (xs ++ ys) body h = (for_each xs body ;; for_each ys body) h.
Proof.
  induction xs as [| x xs IH]; intros h; [done |].
  simpl app. rewrite bind_unfold, !for_each_cons.
  destruct (body x h) as [[] h' | e h' |]; [| done | done].
  by rewrite IH, bind_unfold.
Qed.

Lemma for_each_ext {A} (xs : list A) body1 body2 :
  (forall x h, body1 x h = body2 x h) ->
  forall h, for_each xs body1 h = for_each xs body2 h.
Proof.
  intros Hext. induction xs as [| x xs IH]; intros h; [done |].
  rewrite !for_each_cons, Hext.
  destruct (body2 x h) as [[] h' | e h' |]; [apply IH | done | done].
Qed.

Lemma for_each_flat_map {A B} (f : A -> list B) (xs : list A) body :
  forall h,
    for_each (flat_map f xs) body h
    = for_each xs (fun x => for_each (f x) body) h.
Proof.
  induction xs as [| x xs IH]; intros h; [done |].
  simpl flat_map. rewrite for_each_app, bind_unfold, for_each_cons.
  destruct (for_each (f x) body h) as [[] h' | e h' |]; [apply IH | done | done].
Qed.

(** [inspect] checks the paths of [checked_paths], one after the other. *)
Lemma inspect_checked_paths self fs statfn fuel h :
  inspect self fs statfn fuel h
  = _check self statfn fuel (checked_paths (topdir self) fs) h.
Proof.
  unfold inspect, _check, checked_paths.
  rewrite for_each_flat_map. apply for_each_ext.
  intros [[root dirs] files] h0.
  rewrite bind_unfold.
  set (rel := str_from _ root +:+ sep_s).
  rewrite !for_each_cons.
  destruct (_check_entry self statfn fuel rel h0) as [[] h1 | e h1 |];
    [| done | done].
  by destruct files.
Qed.

Lemma str_from_length s : str_from (String.length s) s = "".
Proof. induction s as [| c s IH]; [done | exact IH]. Qed.

(** Whatever the top directory, the first path that is checked is the
    separator alone: [root[topdirLen:]] is empty for the top directory
    itself. *)
Lemma checked_paths_first topdir fs :
  exists rest, checked_paths topdir fs = "/" :: rest.
Proof.
  destruct fs as [dirs files]. unfold checked_paths. simpl walk.
  simpl flat_map. rewrite str_from_length. eauto.
Qed.

End Scan.

(* ===================================================================== *)
(** ** Facts about [_check]                                                *)
(* ===================================================================== *)

Section Check.

Implicit Types (self : Inspector) (h : Heap) (k : kind).

Lemma in_window_spec self t :
  in_window self t = true <-> start self < t < end_ self.
Proof. unfold in_window. rewrite andb_true_iff, !Z.ltb_lt. done. Qed.

Lemma bind_returns {A B} (m : M A) (f : A -> M B) h b h' :
  (m ≫= f) h = Returns b h' ->
  exists a h1, m h = Returns a h1 /\ f a h1 = Returns b h'.
Proof.
  rewrite bind_unfold. destruct (m h) as [a h1 | e h1 |]; [eauto | done | done].
Qed.

Lemma check_cons self statfn fuel path rest h :
  _check self statfn fuel (path :: rest) h =
    match _check_entry self statfn fuel path h with
    | Returns _ h' => _check self statfn fuel rest h'
    | Raises e h' => Raises e h'
    | Running => Running
    end.
Proof. reflexivity. Qed.

(** The [except] clause and what it lets through. *)
Lemma check_entry_caught self statfn fuel path e h :
  statfn (topdir self +:+ path) = inl e ->
  caught e = true ->
  _check_entry self statfn fuel path h
  = Returns tt
      (let h1 := store_error (topdir self +:+ path) e h in
       match errorCb self with
       | Some cb => log_call (Called cb (topdir self +:+ path) (inl e)) h1
       | None => h1
       end).
Proof.
  intros Hst Hc. unfold _check_entry, _stat. rewrite Hst, Hc.
  rewrite bind_unfold. unfold update. by destruct (errorCb self).
Qed.

Lemma check_entry_uncaught self statfn fuel path e h :
  statfn (topdir self +:+ path) = inl e ->
  caught e = false ->
  _check_entry self statfn fuel path h = Raises e h.
Proof.
  intros Hst Hc. unfold _check_entry, _stat. by rewrite Hst, Hc.
Qed.

(** A call of [propagate] that returns has run [_propagate] on the
    dictionary of its kind and has touched nothing else. *)
Lemma propagate_returns self fuel k path stamp h h' :
  propagate self fuel k path stamp h = Returns tt h' ->
  _propagate fuel (self_dict self k h) path stamp = Some (self_dict self k h')
  /\ (forall k', k' <> k -> self_dict self k' h' = self_dict self k' h)
  /\ Inspector_errors h' = Inspector_errors h
  /\ calls h' = calls h.
Proof.
  unfold propagate.
  destruct (_propagate fuel (self_dict self k h) path stamp) as [d |] eqn:E; [| done].
  intros [= <-]. destruct k; simpl; (split; [done |]); (split; [| done]);
    intros [] ?; done.
Qed.

(** One of the three [if start < t < end: ...] statements. *)
Lemma window_step self fuel k path t (x y : Z) h c h1 :
  (if in_window self t then propagate self fuel k path t ;; mret x else mret y) h
  = Returns c h1 ->
  (in_window self t = true /\ c = x
   /\ propagate self fuel k path t h = Returns tt h1)
  \/ (in_window self t = false /\ c = y /\ h1 = h).
Proof.
  destruct (in_window self t).
  - intros H. apply bind_returns in H as ([] & h2 & Hp & Hr).
    injection Hr as <- <-. by left.
  - intros [= <- <-]. by right.
Qed.

Lemma check_stamps_returns self fuel path st h c h' :
  _check_stamps self fuel path st h = Returns c h' ->
  exists c1 c2 h1 h2,
    ((in_window self (st_ctime st) = true /\ c1 = st_ctime st
      /\ propagate self fuel Created path (st_ctime st) h = Returns tt h1)
     \/ (in_window self (st_ctime st) = false /\ c1 = 0 /\ h1 = h))
    /\ ((in_window self (st_atime st) = true
         /\ c2 = (if negb (truthy c1) then st_atime st else c1)
         /\ propagate self fuel Accessed path (st_atime st) h1 = Returns tt h2)
        \/ (in_window self (st_atime st) = false /\ c2 = c1 /\ h2 = h1))
    /\ ((in_window self (st_mtime st) = true
         /\ c = (if negb (truthy c2) then st_mtime st else c2)
         /\ propagate self fuel Modified path (st_mtime st) h2 = Returns tt h')
        \/ (in_window self (st_mtime st) = false /\ c = c2 /\ h' = h2)).
Proof.
  unfold _check_stamps. intros H.
  apply bind_returns in H as (c1 & h1 & H1 & H).
  apply bind_returns in H as (c2 & h2 & H2 & H).
  apply bind_returns in H as (c3 & h3 & H3 & H).
  injection H as <- <-.
  apply window_step in H1, H2, H3.
  exists c1, c2, h1, h2. done.
Qed.

(** What the three tests do to the dictionary of one kind. *)
Lemma check_stamps_dicts self fuel path st h c h' k :
  _check_stamps self fuel path st h = Returns c h' ->
  (in_window self (stamp_of k st) = true ->
     _propagate fuel (self_dict self k h) path (stamp_of k st)
     = Some (self_dict self k h'))
  /\ (in_window self (stamp_of k st) = false ->
     self_dict self k h' = self_dict self k h)
  /\ Inspector_errors h' = Inspector_errors h
  /\ calls h' = calls h.
Proof.
  intros H. apply check_stamps_returns in H as (c1 & c2 & h1 & h2 & H1 & H2 & H3).
  destruct H1 as [(W1 & _ & P1) | (W1 & _ & ->)];
  destruct H2 as [(W2 & _ & P2) | (W2 & _ & ->)];
  destruct H3 as [(W3 & _ & P3) | (W3 & _ & ->)];
  repeat match goal with
  | P : propagate _ _ _ _ _ _ = Returns tt _ |- _ =>
      apply propagate_returns in P as (? & ? & ? & ?)
  end;
  repeat match goal with
  | F : forall k', k' <> _ -> _ |- _ =>
      pose proof (F Created); pose proof (F Accessed); pose proof (F Modified);
      clear F
  end;
  destruct k; simpl in *; (split; [| split; [| split]]); try congruence;
  intros ?; try congruence;
  repeat match goal with
  | F : ?a <> ?b -> _ |- _ =>
      first [ specialize (F ltac:(discriminate)) | clear F ]
  end; congruence.
Qed.


End Check.

(* ===================================================================== *)
(** ** Sanity checks of the embedding                                      *)
(* ===================================================================== *)

Example dirname_file : dirname "a/b/new.txt" = "a/b".
Proof. reflexivity. Qed.

Example dirname_dir : dirname "a/b/" = "a/b".
Proof. reflexivity. Qed.

Example dirname_top : dirname "a" = "".
Proof. reflexivity. Qed.

Example dirname_abs : dirname "/a" = "/".
Proof. reflexivity. Qed.

Example dirname_root : dirname "/" = "/".
Proof. reflexivity. Qed.

Example dirname_slashes : dirname "a//b" = "a".
Proof. reflexivity. Qed.

Example join_plain : join "/r" "a" = "/r/a".
Proof. reflexivity. Qed.

Example join_slash : join "/r/" "a" = "/r/a".
Proof. reflexivity. Qed.

Example walk_tree_r :
  walk "/r/" Examples.tree_r = [("/r/", ["a"], []); ("/r/a", [], ["f"; "g"])].
Proof. reflexivity. Qed.

Example checked_paths_tree_r :
  checked_paths "/r/" Examples.tree_r = ["/"; "a/"; "a/f"; "a/g"].
Proof. reflexivity. Qed.

Example checked_paths_no_slash :
  checked_paths "/r" Examples.tree_r = ["/"; "/a/"; "/a/f"; "/a/g"].
Proof. reflexivity. Qed.

Example propagate_file :
  _propagate 8 ∅ "a/b/new.txt" 7
  = Some (<["a" := 7]> (<["a/b" := 7]> (<["a/b/new.txt" := 7]> ∅))).
Proof. vm_compute. reflexivity. Qed.

Example propagate_early_exit :
  _propagate 8 (<["a" := 9]> ∅) "a/b" 7 = Some (<["a/b" := 7]> (<["a" := 9]> ∅)).
Proof. vm_compute. reflexivity. Qed.

(** The parent chain of [a/b/c]; the key ["a/"] is not on the chain of
    [a/f]. *)
Example ancestor_chain : ancestor "a" "a/b/c" /\ ancestor "a/b" "a/b/c".
Proof.
  split.
  - apply ancestor_up. exact (ancestor_parent "a/b").
  - exact (ancestor_parent "a/b/c").
Qed.

Example trailing_sep_key_is_no_ancestor : ~ ancestor "a/" "a/f".
Proof.
  intros H. inversion H as [p Hp Heq | a p Hup]; subst.
  - vm_compute in Hp. discriminate.
  - change (dirname "a/f") with "a" in Hup.
    inversion Hup as [p Hp Heq | a p Hup']; subst.
    + vm_compute in Hp. discriminate.
    + by apply ancestor_of_root in Hup'.
Qed.

(** A stamp below the sentinel is dropped at once. *)
Example propagate_below_sentinel : _propagate 8 ∅ "a/b" (-5) = Some ∅.
Proof. reflexivity. Qed.

(* ===================================================================== *)
(** ** The claims                                                          *)
(* ===================================================================== *)

(** A scan never returns when the top directory itself matches: its path
    is the separator alone, which is its own parent. *)
Lemma inspect_diverges_on_matching_topdir self fs statfn st h :
  statfn (topdir self +:+ "/") = inr st ->
  in_window self (st_ctime st) = true ->
  dict_get (Inspector_created h) "/" (-1) <= st_ctime st ->
  forall fuel, inspect self fs statfn fuel h = Running.
Proof.
  intros Hst W Hge fuel.
  rewrite inspect_checked_paths.
  destruct (checked_paths_first (topdir self) fs) as [rest ->].
  unfold _check. rewrite for_each_cons.
  unfold _check_entry, _stat. rewrite Hst.
  rewrite bind_unfold. unfold _check_stamps. rewrite bind_unfold, W, bind_unfold.
  unfold propagate. simpl self_dict.
  by rewrite propagate_fixed_path_diverges.
Qed.

(** C1.  The claim: for every aggregate map, every relative path produced
    by the walker and every timestamp, a call of the propagate operation
    terminates, through the early exit or when the path becomes the empty
    string.  On the code: the first path of every walk is ["/"], and
    [dirname "/"] is ["/"] again, so the call on the empty map with stamp 5
    is still running after any number of turns; so is the scan of a top
    directory whose own creation time lies inside the window. *)
Theorem propagate_from_walk_root_never_returns :
  (forall topdir fs, exists rest, checked_paths topdir fs = "/" :: rest)
  /\ (forall fuel, _propagate fuel ∅ "/" 5 = None)
  /\ (forall fuel,
        inspect (mk_inspector "/r" 0 10 None None) (Dir [] [])
                Examples.stat_top fuel module_loaded = Running).
Proof.
  split; [| split].
  - apply checked_paths_first.
  - intros fuel. by apply propagate_fixed_path_diverges.
  - apply (inspect_diverges_on_matching_topdir _ _ _ (mk_stat 5 100 100)); done.
Qed.

(** The constructor stores the bounds as they were resolved. *)
Lemma init_stores_resolved_bounds exists_ topdir s e w cbm cbe self :
  __init__ exists_ topdir s e w cbm cbe = inr self ->
  resolve_window s e w = inr (start self, end_ self).
Proof.
  unfold __init__. destruct (negb (exists_ topdir)); [done |].
  destruct (resolve_window s e w) as [err | [s' e']]; [done |].
  by intros [= <-].
Qed.

(** C2.  The claim: for every accepted combination of start, end and
    window, also in reversed order, the window stored on the instance
    satisfies start <= end.  On the code: line 56 assigns the bounds again
    as they were given, after lines 53-54 had ordered them: whenever both
    bounds are given the instance holds them unchanged, and constructed
    with start 10 and end 5 it holds start 10 and end 5. *)
Theorem init_keeps_reversed_bounds :
  (forall topdir s e w cbm cbe,
     __init__ Examples.exists_all topdir (Some s) (Some e) w cbm cbe
     = inr (mk_inspector topdir s e cbm cbe))
  /\ (exists self,
        __init__ Examples.exists_all "/r" (Some 10) (Some 5) None None None
        = inr self
        /\ start self = 10 /\ end_ self = 5
        /\ ~ start self <= end_ self).
Proof.
  split; [done |].
  eexists. split; [reflexivity |]. simpl. repeat split; lia.
Qed.

(** C3, as the design states it, fails for the key under which the walk
    records a directory: the calls that the scan of [/r/] issues for the
    directory [a], created at 5, and for its file [a/f], created at 7,
    leave ["a/"] at 5 below ["a/f"] at 7, the parent chain of [a/f] being
    ["a"] and not ["a/"]. *)
Lemma trailing_sep_directory_key_stays_behind :
  ~ (forall fuel cs m,
       propagate_all fuel cs ∅ = Some m ->
       forall p a vp va,
         m !! p = Some vp -> m !! a = Some va -> ancestor_directory a p ->
         vp <= va).
Proof.
  intros Hclaim.
  set (m := <["a" := 7]> (<["a/f" := 7]> (<["a/" := 5]> ∅)) : dict).
  assert (Hrun : propagate_all 8 [("a/", 5); ("a/f", 7)] ∅ = Some m)
    by (vm_compute; reflexivity).
  assert (Hp : m !! "a/f" = Some 7) by (vm_compute; reflexivity).
  assert (Ha : m !! "a/" = Some 5) by (vm_compute; reflexivity).
  assert (Hdir : ancestor_directory "a/" "a/f").
  { right. exists "a". split; [exact (ancestor_parent "a/f") | reflexivity]. }
  pose proof (Hclaim 8%nat _ m Hrun "a/f" "a/" 7 5 Hp Ha Hdir). lia.
Qed.

(** C3, amended.  After any sequence of propagate calls that starts from
    the empty map, for every path [p] in the map and every ancestor [a] of
    [p] reached from [p] by taking the parent path ([dirname]) one or more
    times that is in the map too, the value at [a] is at least the value
    at [p]. *)
Theorem monotonic_max_invariant fuel cs m :
  propagate_all fuel cs ∅ = Some m ->
  forall p a vp va,
    m !! p = Some vp -> m !! a = Some va -> ancestor a p -> vp <= va.
Proof.
  intros Hrun p a vp va Hp Ha Hanc.
  eapply parent_closed_ancestors; [| exact Hanc | exact Hp | exact Ha].
  eapply propagate_all_parent_closed; [apply parent_closed_empty | exact Hrun].
Qed.

Lemma monotonic_max_invariant_witness :
  let m : dict :=
    <["a/x" := 9]> (<["a" := 9]> (<["a/b" := 7]> (<["a/b/c" := 5]> ∅))) in
  propagate_all 8 [("a/b/c", 5); ("a/x", 9); ("a/b", 7)] ∅ = Some m
  /\ m !! "a/b/c" = Some 5 /\ m !! "a" = Some 9
  /\ ancestor "a" "a/b/c"
  /\ 5 <= 9.
Proof.
  intros m.
  assert (H1 : propagate_all 8 [("a/b/c", 5); ("a/x", 9); ("a/b", 7)] ∅ = Some m)
    by (vm_compute; reflexivity).
  assert (H2 : m !! "a/b/c" = Some 5) by (vm_compute; reflexivity).
  assert (H3 : m !! "a" = Some 9) by (vm_compute; reflexivity).
  assert (H4 : ancestor "a" "a/b/c")
    by (apply ancestor_up; exact (ancestor_parent "a/b")).
  split; [exact H1 |]. split; [exact H2 |]. split; [exact H3 |].
  split; [exact H4 |].
  exact (monotonic_max_invariant 8 _ m H1 "a/b/c" "a" 5 9 H2 H3 H4).
Defined.

(** C4.  The claim: every probe failure, of whatever kind, is recorded in
    the errors map under the absolute path, forwarded to the error
    callback if one is registered, and the scan continues; no error aborts
    the scan.  On the code only [PermissionError] and [FileNotFoundError]
    are caught: in the scan of [/r/] the refused probe of [a] is recorded
    in [errors] and reported to the callback, but the probe of [a/f],
    which fails with an error of another kind, is neither recorded nor
    reported; its exception leaves [inspect], and the next entry [a/g],
    which lies inside the window, is never probed. *)
Theorem uncaught_probe_error_aborts_scan :
  exists h',
    inspect (mk_inspector "/r/" 0 10 None (Some Examples.on_error))
            Examples.tree_r Examples.stat_refused_then_oserror 8 module_loaded
    = Raises OSError h'
    /\ Inspector_errors h' !! "/r/a/" = Some PermissionError
    /\ Inspector_errors h' !! "/r/a/f" = None
    /\ calls h' = [Called Examples.on_error "/r/a/" (inl PermissionError)]
    /\ Inspector_created h' !! "a/g" = None.
Proof.
  eexists. split; [vm_compute; reflexivity |]. vm_compute. done.
Qed.

(** C5.  The claim: construction fails with an ArgumentError when only
    window is given, when start is given without end or window, and when
    end is given without start or window.  On the code none of the three
    does: with only [window] given neither test fires and line 50
    evaluates [None - window], which raises [TypeError]; in the other two
    cases the [raise] statement names a class that the module never binds,
    which raises [NameError]. *)
Theorem init_insufficient_window_raises_other_errors topdir w s e cbm cbe :
  __init__ Examples.exists_all topdir None None (Some w) cbm cbe
  = inl (TypeError "unsupported operand type(s) for -: 'NoneType' and 'int'")
  /\ __init__ Examples.exists_all topdir (Some s) None None cbm cbe
     = inl (NameError "name 'ArgumentError' is not defined")
  /\ __init__ Examples.exists_all topdir None (Some e) None cbm cbe
     = inl (NameError "name 'ArgumentError' is not defined").
Proof. done. Qed.

(** C6.  Window membership is strict on both sides, for each of the three
    timestamp fields on its own: when the check of an entry returns, the
    dictionary of kind [k] is the result of propagating the entry's stamp
    of that kind if [start < stamp < end], and is untouched otherwise; in
    particular a stamp equal to [start] or to [end] is not propagated. *)
Theorem window_membership_is_strict self statfn fuel path st h h' k :
  statfn (topdir self +:+ path) = inr st ->
  _check self statfn fuel [path] h = Returns tt h' ->
  (start self < stamp_of k st < end_ self ->
     _propagate fuel (self_dict self k h) path (stamp_of k st)
     = Some (self_dict self k h'))
  /\ (~ start self < stamp_of k st < end_ self ->
      self_dict self k h' = self_dict self k h)
  /\ (stamp_of k st = start self \/ stamp_of k st = end_ self ->
      self_dict self k h' = self_dict self k h).
Proof.
  intros Hst. unfold _check. rewrite for_each_cons.
  unfold _check_entry, _stat. rewrite Hst.
  destruct (_ ≫= _) as [[] h1 | |] eqn:E; [| done | done].
  intros [= ->].
  apply bind_returns in E as (c & h2 & Hstamps & Hcb).
  apply (check_stamps_dicts _ _ _ _ _ _ _ k) in Hstamps as (Hin & Hout & _ & _).
  assert (Hsame : self_dict self k h' = self_dict self k h2).
  { destruct (truthy c), (matchesCb self); injection Hcb as <-; by destruct k. }
  rewrite Hsame.
  assert (Houtside : ~ start self < stamp_of k st < end_ self ->
                     self_dict self k h2 = self_dict self k h).
  { intros Hn. apply Hout. apply not_true_is_false.
    by rewrite in_window_spec. }
  split; [| split].
  - intros Hw. apply Hin. by apply in_window_spec.
  - exact Houtside.
  - intros [Heq | Heq]; apply Houtside; lia.
Qed.

Lemma window_membership_is_strict_witness :
  let self := mk_inspector "/r/" 0 10 None None in
  let statfn := Examples.table_stat [("/r/a/f", inr (mk_stat 10 0 5))] in
  let h' := mk_heap ∅ ∅ (<["a" := 5]> (<["a/f" := 5]> ∅)) ∅ [] in
  statfn ("/r/" +:+ "a/f") = inr (mk_stat 10 0 5)
  /\ _check self statfn 8 ["a/f"] module_loaded = Returns tt h'
  /\ (stamp_of Created (mk_stat 10 0 5) = start self
      \/ stamp_of Created (mk_stat 10 0 5) = end_ self)
  /\ self_dict self Created h' = self_dict self Created module_loaded.
Proof.
  intros self statfn h'.
  assert (H1 : statfn (topdir self +:+ "a/f") = inr (mk_stat 10 0 5))
    by reflexivity.
  assert (H2 : _check self statfn 8 ["a/f"] module_loaded = Returns tt h')
    by (vm_compute; reflexivity).
  assert (H3 : stamp_of Created (mk_stat 10 0 5) = start self
               \/ stamp_of Created (mk_stat 10 0 5) = end_ self)
    by (right; reflexivity).
  split; [exact H1 |]. split; [exact H2 |]. split; [exact H3 |].
  exact (proj2 (proj2 (window_membership_is_strict self statfn 8 "a/f"
                         (mk_stat 10 0 5) module_loaded h' Created H1 H2)) H3).
Defined.

(** C7.  The claim: the four result maps are created fresh for each scan
    and owned by it; two independently constructed instances never see
    each other's contents, and a second run starts with all four maps
    empty.  On the code the four dictionaries belong to the class: after
    the scan of instance [a], instance [b] finds [a]'s entries in
    [b.created] and [b.errors] before its own scan has started, and they
    are still there after it. *)
Theorem instances_share_the_result_maps :
  exists a b h1 h2,
    __init__ Examples.exists_all "/r/" (Some 0) (Some 10) None None None = inr a
    /\ __init__ Examples.exists_all "/s/" (Some 0) (Some 10) None None None = inr b
    /\ inspect a Examples.tree_r Examples.stat_plain 8 module_loaded = Returns tt h1
    /\ self_dict b Created h1 !! "a/f" = Some 7
    /\ self_errors b h1 !! "/r/a/g" = Some FileNotFoundError
    /\ inspect b (Dir [] []) Examples.stat_plain 8 h1 = Returns tt h2
    /\ self_dict b Created h2 !! "a/f" = Some 7
    /\ self_errors b h2 !! "/r/a/g" = Some FileNotFoundError.
Proof.
  do 4 eexists.
  split; [reflexivity |]. split; [reflexivity |].
  split; [vm_compute; reflexivity |].
  split; [vm_compute; reflexivity |]. split; [vm_compute; reflexivity |].
  split; [vm_compute; reflexivity |].
  split; vm_compute; reflexivity.
Qed.

(** C8.  Propagation is idempotent: when [propagate(map, path, t)] returns
    a map, calling it again on that map, with the same path and stamp,
    returns the same map. *)
Theorem propagate_idempotent fuel dest path stamp dest' :
  _propagate fuel dest path stamp = Some dest' ->
  _propagate fuel dest' path stamp = Some dest'.
Proof.
  revert dest path.
  induction fuel as [| fuel IH]; intros dest path H; [done |].
  apply propagate_inv in H as [[-> ->] | [(Hne & Hlt & ->) | (Hne & Hge & Hrec)]].
  - (* the first call stopped at the root: so does the second *)
    done.
  - (* the first call left through the early exit: so does the second *)
    rewrite propagate_unfold.
    destruct (String.eqb_spec path "") as [-> | _]; [done |].
    by destruct (Z.ltb_spec stamp (dict_get dest path (-1))); [| lia].
  - (* the first call wrote [stamp] at [path] and went on: the second finds
       [stamp] there, writes it again and goes on in the same way *)
    rewrite propagate_unfold.
    destruct (String.eqb_spec path "") as [-> | _]; [done |].
    assert (Hp : dest' !! path = Some stamp).
    { apply (propagate_keeps_stamp _ _ _ _ _ _ Hrec), lookup_insert_eq. }
    unfold dict_get. rewrite Hp. simpl.
    rewrite Z.ltb_irrefl, (insert_id _ _ _ Hp).
    by apply (IH (<[path := stamp]> dest)).
Qed.

Lemma propagate_idempotent_witness :
  let dest : dict := <["a" := 9]> ∅ in
  let dest' : dict := <["a/b/c" := 7]> (<["a/b" := 7]> (<["a" := 9]> ∅)) in
  _propagate 8 dest "a/b/c" 7 = Some dest'
  /\ _propagate 8 dest' "a/b/c" 7 = Some dest'.
Proof.
  intros dest dest'.
  assert (H : _propagate 8 dest "a/b/c" 7 = Some dest') by (vm_compute; reflexivity).
  split; [exact H |].
  exact (propagate_idempotent 8 dest "a/b/c" 7 dest' H).
Defined.

(** C9.  The claim: the match callback is invoked exactly when at least
    one of the three timestamps lies inside the window, and the
    representative timestamp is that of the first matching kind, never
    overwritten by a later one.  On the code [candidate] starts at 0 and is
    tested for truth, so a matching stamp equal to 0 counts as no match:
    with the window (-10, 10), [a/f] matches on its modification time 0
    and is propagated, yet the callback is not called; and for the stamps
    (0, 3, 100) the creation time 0 matches first, yet [candidate] ends as
    the access time 3. *)
Theorem epoch_stamp_is_no_candidate :
  let self := mk_inspector "/r/" (-10) 10 (Some Examples.on_match) None in
  (exists h',
     _check self Examples.stat_epoch 8 ["a/f"] module_loaded = Returns tt h'
     /\ first_match self (mk_stat 100 100 0) = Some 0
     /\ Inspector_modified h' !! "a/f" = Some 0
     /\ calls h' = [])
  /\ (exists h',
        _check_stamps self 8 "a/g" (mk_stat 0 3 100) module_loaded = Returns 3 h'
        /\ first_match self (mk_stat 0 3 100) = Some 0).
Proof.
  intros self. split.
  - eexists. split; [vm_compute; reflexivity |]. vm_compute. done.
  - eexists. split; [vm_compute; reflexivity |]. reflexivity.
Qed.

(** C10.  After a scan the same directory can appear in an aggregate map
    under two keys with values of their own: in the scan of [/r/] the
    directory [a], created at 5, is recorded under ["a/"], the path the
    walk yields for it, while the file [a/f], created at 7, raises the key
    ["a"], its [dirname], to 7 and leaves ["a/"] at 5.  In general the
    path checked for a directory ends with the separator, and a key with
    a trailing separator is written by no propagation other than the one
    that starts at this very key. *)
Theorem directory_under_two_keys :
  (exists h',
     inspect (mk_inspector "/r/" 0 10 None None)
             Examples.tree_r Examples.stat_plain 8 module_loaded = Returns tt h'
     /\ Inspector_created h' !! "a/" = Some 5
     /\ Inspector_created h' !! "a" = Some 7
     /\ Inspector_created h' !! "a/f" = Some 7)
  /\ (forall root, endswith_sep (root +:+ sep_s) = true)
  /\ (forall fuel dest path stamp dest' key,
        _propagate fuel dest path stamp = Some dest' ->
        endswith_sep key = true ->
        key <> path ->
        dest' !! key = dest !! key).
Proof.
  split; [| split].
  - eexists. split; [vm_compute; reflexivity |]. vm_compute. done.
  - apply endswith_sep_append.
  - intros fuel. apply propagate_frame_trailing_sep.
Qed.

(* ===================================================================== *)
(** ** Further properties of [_propagate]                                  *)
(* ===================================================================== *)

Section PropagateMore.

Implicit Types (dest m : dict) (path q : string) (stamp : Z) (fuel : nat).

Lemma propagate_deterministic fuel dest path stamp d1 d2 :
  _propagate fuel dest path stamp = Some d1 ->
  _propagate fuel dest path stamp = Some d2 ->
  d1 = d2.
Proof. congruence. Qed.

(** Keys stay and values only go up. *)
Lemma propagate_grows fuel :
  forall dest path stamp dest' q v,
    _propagate fuel dest path stamp = Some dest' ->
    dest !! q = Some v ->
    exists v', dest' !! q = Some v' /\ v <= v'.
Proof.
  induction fuel as [| fuel IH]; intros dest path stamp dest' q v H Hq; [done |].
  apply propagate_inv in H as [[_ ->] | [(_ & _ & ->) | (Hne & Hge & Hrec)]].
  - exists v. split; [done | lia].
  - exists v. split; [done | lia].
  - destruct (decide (path = q)) as [-> | Hpq].
    + unfold dict_get in Hge. rewrite Hq in Hge. simpl in Hge.
      destruct (IH _ _ _ _ q stamp Hrec) as (v' & Hv' & Hle).
      { by rewrite lookup_insert_eq. }
      exists v'. split; [done | lia].
    + apply (IH _ _ _ _ q v Hrec). by rewrite lookup_insert_ne.
Qed.

(** Only the path and its ancestors are written, and never the empty
    string. *)
Lemma propagate_frame fuel :
  forall dest path stamp dest' q,
    _propagate fuel dest path stamp = Some dest' ->
    q = "" \/ (q <> path /\ ~ ancestor q path) ->
    dest' !! q = dest !! q.
Proof.
  induction fuel as [| fuel IH]; intros dest path stamp dest' q H Hq; [done |].
  apply propagate_inv in H as [[_ ->] | [(_ & _ & ->) | (Hne & Hge & Hrec)]];
    [done | done |].
  rewrite (IH _ _ _ _ q Hrec).
  - rewrite lookup_insert_ne; [done |].
    destruct Hq as [-> | [Hq _]]; congruence.
  - destruct Hq as [-> | [Hq Hanc]]; [by left | right]. split.
    + intros ->. apply Hanc. constructor.
    + intros Ha. apply Hanc. by constructor.
Qed.

Lemma lstrip_sep_nil l : lstrip_sep l = [] -> all_sep l = true.
Proof.
  induction l as [| c l IH]; simpl; [done |].
  destruct (is_sep c); [exact IH | done].
Qed.

(** The parent of a path that begins with the separator begins with the
    separator. *)
Lemma dirname_absolute p :
  startswith_sep p = true -> startswith_sep (dirname p) = true.
Proof.
  unfold startswith_sep. rewrite dirname_as_rev.
  rewrite list_ascii_of_string_of_list_ascii.
  destruct (list_ascii_of_string p) as [| c l]; [done |]. simpl. intros Hc.
  destruct (dirname_rev_suffix (rev l ++ [c])%list) as [k Hk].
  assert (Hd : dirname_rev (rev l ++ [c])%list <> []).
  { unfold dirname_rev.
    assert (Hs : skip_to_sep (rev l ++ [c])%list <> []).
    { rewrite skip_to_sep_app.
      destruct (skip_to_sep (rev l)) as [| x xs]; simpl; [by rewrite Hc | done]. }
    destruct (skip_to_sep (rev l ++ [c])%list) as [| x xs] eqn:E; [done |].
    destruct (all_sep (x :: xs)) eqn:A; simpl negb; cbv iota; [done |].
    intros Hn. apply lstrip_sep_nil in Hn. congruence. }
  apply (f_equal (@rev _)) in Hk.
  rewrite rev_app_distr, rev_involutive in Hk. simpl in Hk.
  rewrite rev_app_distr in Hk.
  destruct (rev (dirname_rev (rev l ++ [c])%list)) as [| c' d] eqn:E.
  - apply (f_equal (@rev _)) in E. rewrite rev_involutive in E. done.
  - simpl in Hk. injection Hk as <- _. done.
Qed.

Lemma startswith_sep_nonempty p : startswith_sep p = true -> p <> "".
Proof. by intros H ->. Qed.

(** From a path that begins with the separator the loop can leave only
    through the early exit. *)
Lemma propagate_absolute_diverges fuel :
  forall dest path stamp,
    startswith_sep path = true ->
    -1 <= stamp ->
    (forall q v, dest !! q = Some v -> v <= stamp) ->
    _propagate fuel dest path stamp = None.
Proof.
  induction fuel as [| fuel IH]; intros dest path stamp Habs Hst Hle; [done |].
  rewrite propagate_unfold.
  destruct (String.eqb_spec path "") as [-> | _]; [done |].
  assert (Hold : dict_get dest path (-1) <= stamp).
  { unfold dict_get. destruct (dest !! path) as [v |] eqn:E; simpl; [by eapply Hle | done]. }
  destruct (Z.ltb_spec stamp (dict_get dest path (-1))) as [? | _]; [lia |].
  apply IH; [by apply dirname_absolute | done |].
  intros q v. destruct (decide (path = q)) as [-> | Hpq].
  - rewrite lookup_insert_eq. intros [= <-]. lia.
  - rewrite lookup_insert_ne by done. apply Hle.
Qed.

End PropagateMore.

(* ===================================================================== *)
(** ** [_propagate] as a pointwise maximum                                 *)
(* ===================================================================== *)

Section PointwiseMax.

Implicit Types (dest m : dict) (path q : string) (stamp : Z) (fuel : nat).

(** Writing the stamp at [path] moves the loop invariant to the parent. *)
Lemma parent_closed_upto_write path stamp m :
  parent_closed_upto path stamp m ->
  path <> "" ->
  dict_get m path (-1) <= stamp ->
  parent_closed_upto (dirname path) stamp (<[path := stamp]> m).
Proof.
  intros [Hr Hs Hp] Hne Hge.
  pose proof (dict_get_sentinel m path Hs) as Hold.
  split.
  - by rewrite lookup_insert_ne.
  - intros p v. destruct (decide (path = p)) as [-> | Hpp].
    + rewrite lookup_insert_eq. intros [= <-]. lia.
    + rewrite lookup_insert_ne by done. apply Hs.
  - intros p v. destruct (decide (path = p)) as [-> | Hpp].
    + rewrite lookup_insert_eq. intros [= <-]. right; right. split; [done | lia].
    + rewrite lookup_insert_ne by done. intros Hpv.
      destruct (Hp p v Hpv) as [? | [(v' & Hv' & Hle) | [Hd Hv]]]; [by left | |].
      * right; left. destruct (decide (path = dirname p)) as [Heq | Hnq].
        -- exists stamp. rewrite <- Heq, lookup_insert_eq. split; [done |].
           unfold dict_get in Hge. rewrite Heq, Hv' in Hge. simpl in Hge. lia.
        -- exists v'. by rewrite lookup_insert_ne.
      * right; left. exists stamp. rewrite Hd, lookup_insert_eq. done.
Qed.

(** Above an entry that holds more than [stamp], every ancestor is present
    and holds at least as much. *)
Lemma parent_closed_upto_above path stamp m a p :
  parent_closed_upto path stamp m ->
  ancestor a p ->
  a <> "" ->
  forall v, m !! p = Some v -> stamp < v ->
  exists va, m !! a = Some va /\ v <= va.
Proof.
  intros [Hr Hs Hp]. induction 1 as [p | a p Hanc IH]; intros Ha v Hv Hlt.
  - destruct (Hp p v Hv) as [Hd | [(v' & Hv' & Hle) | [_ ?]]]; [done | | lia].
    by exists v'.
  - destruct (Hp p v Hv) as [Hd | [(v' & Hv' & Hle) | [_ ?]]]; [| | lia].
    + apply ancestor_of_root in Hanc; done.
    + destruct (IH Ha v' Hv' ltac:(lia)) as (va & Hva & Hle').
      exists va. split; [done | lia].
Qed.

(** A stamp below the sentinel changes nothing. *)
Lemma propagate_below_sentinel_noop fuel m path stamp m' :
  (forall p v, m !! p = Some v -> -1 <= v) ->
  stamp < -1 ->
  _propagate fuel m path stamp = Some m' ->
  m' = m.
Proof.
  intros Hs Hlt H. destruct fuel as [| fuel]; [done |].
  pose proof (dict_get_sentinel m path Hs).
  apply propagate_inv in H as [[_ ->] | [(_ & _ & ->) | (_ & ? & _)]];
    [done | done | lia].
Qed.

(** On the chain of [path] a call that returns leaves the maximum of the
    stamp and the old value. *)
Lemma propagate_chain_max fuel :
  forall m path stamp m' q,
    parent_closed_upto path stamp m ->
    -1 <= stamp ->
    _propagate fuel m path stamp = Some m' ->
    q = path \/ ancestor q path ->
    q <> "" ->
    m' !! q = Some (Z.max stamp (dict_get m q (-1))).
Proof.
  induction fuel as [| fuel IH]; intros m path stamp m' q Hinv Hst H Hq Hne; [done |].
  apply propagate_inv in H as [[-> ->] | [(Hp & Hlt & ->) | (Hp & Hge & Hrec)]].
  - (* the root *)
    destruct Hq as [-> | Hq]; [done |].
    by apply ancestor_of_root in Hq.
  - (* early exit: [path] and all above hold more than the stamp *)
    assert (Hpath : m !! path = Some (dict_get m path (-1))).
    { unfold dict_get in *. destruct (m !! path); simpl in *; [done | lia]. }
    destruct Hq as [-> | Hq].
    + rewrite Hpath. f_equal. lia.
    + destruct (parent_closed_upto_above _ _ _ _ _ Hinv Hq Hne _ Hpath Hlt)
        as (va & Hva & Hle).
      unfold dict_get. rewrite Hva. simpl. f_equal. lia.
  - (* the stamp is written *)
    destruct Hq as [-> | Hq].
    + rewrite (propagate_keeps_stamp _ _ _ _ _ path Hrec) by apply lookup_insert_eq.
      f_equal. lia.
    + rewrite (IH _ _ _ _ q (parent_closed_upto_write _ _ _ Hinv Hp Hge) Hst Hrec).
      * f_equal. unfold dict_get at 1.
        destruct (decide (path = q)) as [-> | Hpq].
        -- rewrite lookup_insert_eq. simpl. lia.
        -- by rewrite lookup_insert_ne.
      * inversion Hq; subst; [by left | by right].
      * done.
Qed.

(** Two calls that return, taken in either order, leave the same map. *)
Lemma propagate_commute_closed fuel m p1 t1 p2 t2 m1 m12 m2 m21 :
  parent_closed m ->
  _propagate fuel m p1 t1 = Some m1 ->
  _propagate fuel m1 p2 t2 = Some m12 ->
  _propagate fuel m p2 t2 = Some m2 ->
  _propagate fuel m2 p1 t1 = Some m21 ->
  m12 = m21.
Proof.
  intros Hm H1 H12 H2 H21.
  pose proof (propagate_parent_closed _ _ _ _ _ Hm H1) as Hm1.
  pose proof (propagate_parent_closed _ _ _ _ _ Hm H2) as Hm2.
  destruct (Z.lt_ge_cases t1 (-1)) as [Hlt1 | Hge1].
  { apply propagate_below_sentinel_noop in H1; [| apply Hm | done].
    apply propagate_below_sentinel_noop in H21; [| apply Hm2 | done].
    subst. congruence. }
  destruct (Z.lt_ge_cases t2 (-1)) as [Hlt2 | Hge2].
  { apply propagate_below_sentinel_noop in H2; [| apply Hm | done].
    apply propagate_below_sentinel_noop in H12; [| apply Hm1 | done].
    subst. congruence. }
  apply map_eq. intros q.
  destruct (decide (m12 !! q = m21 !! q)) as [| Hneq]; [done | exfalso].
  destruct (decide (q = "")) as [-> | Hq].
  { apply Hneq.
    rewrite (propagate_frame _ _ _ _ _ "" H12), (propagate_frame _ _ _ _ _ "" H1),
      (propagate_frame _ _ _ _ _ "" H21), (propagate_frame _ _ _ _ _ "" H2); auto. }
  (* the goal is [False]: whether [q] lies on a chain may be decided *)
  assert (Hem : forall P : Prop, (P \/ ~ P -> False) -> False) by tauto.
  apply (Hem (q = p1 \/ ancestor q p1)). intros C1.
  apply (Hem (q = p2 \/ ancestor q p2)). intros C2.
  apply Hneq.
  assert (F : forall P Q : Prop, ~ (P \/ Q) -> ~ P /\ ~ Q) by tauto.
  destruct C1 as [C1 | C1%F], C2 as [C2 | C2%F].
  - pose proof (propagate_chain_max _ _ _ _ _ q (parent_closed_enter _ _ _ Hm1) Hge2 H12 C2 Hq) as E12.
    pose proof (propagate_chain_max _ _ _ _ _ q (parent_closed_enter _ _ _ Hm2) Hge1 H21 C1 Hq) as E21.
    pose proof (propagate_chain_max _ _ _ _ _ q (parent_closed_enter _ _ _ Hm) Hge1 H1 C1 Hq) as E1.
    pose proof (propagate_chain_max _ _ _ _ _ q (parent_closed_enter _ _ _ Hm) Hge2 H2 C2 Hq) as E2.
    rewrite E12, E21. unfold dict_get in *. rewrite E1, E2. simpl. f_equal. lia.
  - pose proof (propagate_frame _ _ _ _ _ q H12 ltac:(right; tauto)) as E12.
    pose proof (propagate_chain_max _ _ _ _ _ q (parent_closed_enter _ _ _ Hm2) Hge1 H21 C1 Hq) as E21.
    pose proof (propagate_chain_max _ _ _ _ _ q (parent_closed_enter _ _ _ Hm) Hge1 H1 C1 Hq) as E1.
    pose proof (propagate_frame _ _ _ _ _ q H2 ltac:(right; tauto)) as E2.
    rewrite E12, E21, E1. unfold dict_get. by rewrite E2.
  - pose proof (propagate_chain_max _ _ _ _ _ q (parent_closed_enter _ _ _ Hm1) Hge2 H12 C2 Hq) as E12.
    pose proof (propagate_frame _ _ _ _ _ q H21 ltac:(right; tauto)) as E21.
    pose proof (propagate_frame _ _ _ _ _ q H1 ltac:(right; tauto)) as E1.
    pose proof (propagate_chain_max _ _ _ _ _ q (parent_closed_enter _ _ _ Hm) Hge2 H2 C2 Hq) as E2.
    rewrite E12, E21, E2. unfold dict_get. by rewrite E1.
  - pose proof (propagate_frame _ _ _ _ _ q H12 ltac:(right; tauto)) as E12.
    pose proof (propagate_frame _ _ _ _ _ q H21 ltac:(right; tauto)) as E21.
    pose proof (propagate_frame _ _ _ _ _ q H1 ltac:(right; tauto)) as E1.
    pose proof (propagate_frame _ _ _ _ _ q H2 ltac:(right; tauto)) as E2.
    congruence.
Qed.

(** In a map built by [propagate] calls every non-empty ancestor of a key
    is a key. *)
Lemma parent_closed_ancestor_present m a p :
  parent_closed m ->
  ancestor a p ->
  a <> "" ->
  is_Some (m !! p) ->
  is_Some (m !! a).
Proof.
  intros [Hr Hs Hp]. induction 1 as [p | a p Hanc IH]; intros Ha [v Hv].
  - destruct (Hp p v Hv) as [Hd | (v' & Hv' & _)]; [done | by exists v'].
  - destruct (Hp p v Hv) as [Hd | (v' & Hv' & _)].
    + apply ancestor_of_root in Hanc; done.
    + apply IH; [done | by exists v'].
Qed.

End PointwiseMax.

(* ===================================================================== *)
(** ** Further facts about strings and [walk]                              *)
(* ===================================================================== *)

Section WalkFacts.

Local Open Scope list_scope.

Lemma append_nil_r (a : string) : a +:+ "" = a.
Proof.
  induction a as [| c a IH]; [done |].
  change (String c (a +:+ "") = String c a). by rewrite IH.
Qed.

Lemma append_assoc (a b c : string) : (a +:+ b) +:+ c = a +:+ (b +:+ c).
Proof.
  induction a as [| x a IH]; [done |].
  change (String x ((a +:+ b) +:+ c) = String x (a +:+ (b +:+ c))).
  by rewrite IH.
Qed.

Lemma str_from_append (a b : string) : str_from (String.length a) (a +:+ b) = b.
Proof. induction a as [| c a IH]; [done | exact IH]. Qed.

Lemma startswith_sep_append (a b : string) :
  startswith_sep a = true -> startswith_sep (a +:+ b) = true.
Proof. by destruct a. Qed.

(** An induction principle that reaches the sub-directories. *)
Lemma tree_rect_dirs (P : tree -> Prop) :
  (forall dirs files, Forall (fun d => P (snd d)) dirs -> P (Dir dirs files)) ->
  forall t, P t.
Proof.
  intros H. fix IH 1. intros [dirs files]. apply H.
  induction dirs as [| [name sub] dirs IHd]; constructor; [apply IH | exact IHd].
Qed.

Lemma Forall_flat_map {A B} (P : B -> Prop) (f : A -> list B) (xs : list A) :
  Forall (fun x => Forall P (f x)) xs -> Forall P (flat_map f xs).
Proof.
  induction 1 as [| x xs Hx _ IH]; simpl; [constructor |].
  by apply Forall_app_2.
Qed.

(** [join] extends its first argument when the name does not begin with
    the separator. *)
Lemma join_extends top name :
  startswith_sep name = false -> exists ext, join top name = top +:+ ext.
Proof.
  intros Hn. unfold join. rewrite Hn.
  destruct (String.eqb top "" || endswith_sep top)%bool; eauto.
Qed.

(** Every root of a walk extends the top of the walk. *)
Lemma walk_roots_extend t :
  dir_names_relative t = true ->
  forall top,
    Forall (fun x => exists ext, fst (fst x) = top +:+ ext) (walk top t).
Proof.
  induction t as [dirs files IH] using tree_rect_dirs. intros Hwf top.
  simpl walk. constructor.
  - exists "". simpl. by rewrite append_nil_r.
  - apply Forall_flat_map. simpl in Hwf.
    induction IH as [| [name sub] dirs Hsub _ IHd]; [constructor |].
    simpl in Hwf. apply andb_prop in Hwf as [Hd Hwf].
    apply andb_prop in Hd as [Hname Hsubwf]. apply negb_true_iff in Hname.
    constructor; [| by apply IHd].
    simpl. destruct (join_extends top name Hname) as [ext ->].
    eapply Forall_impl; [apply (Hsub Hsubwf) |].
    intros x [ext' ->]. exists (ext +:+ ext'). by rewrite append_assoc.
Qed.

(** With a top directory that is given without a trailing separator, every
    path that is checked begins with the separator. *)
Lemma checked_paths_absolute topdir fs :
  topdir <> "" ->
  endswith_sep topdir = false ->
  dir_names_relative fs = true ->
  Forall (fun p => startswith_sep p = true) (checked_paths topdir fs).
Proof.
  intros Hne Hend Hwf. unfold checked_paths.
  assert (Hrel : forall rel files,
             startswith_sep rel = true ->
             Forall (fun p => startswith_sep p = true)
                    (rel :: map (String.append rel) files)).
  { intros rel files Hrel. constructor; [done |].
    induction files as [| f files IHf]; constructor; [| exact IHf].
    by apply startswith_sep_append. }
  destruct fs as [dirs files]. simpl walk. simpl flat_map.
  apply (Forall_app_2 _ (_ :: map _ files)).
  - rewrite str_from_length. by apply Hrel.
  - apply Forall_flat_map. apply Forall_flat_map. simpl in Hwf.
    induction dirs as [| [name sub] dirs IHd]; [constructor |].
    simpl in Hwf. apply andb_prop in Hwf as [Hd Hwf].
    apply andb_prop in Hd as [Hname Hsubwf]. apply negb_true_iff in Hname.
    constructor; [| by apply IHd].
    simpl. unfold join. rewrite Hname, Hend.
    destruct (String.eqb_spec topdir "") as [? | _]; [done |]. simpl orb. cbv iota.
    eapply Forall_impl; [apply (walk_roots_extend sub Hsubwf) |].
    intros [[root ds] fs] [ext Hx]. simpl in Hx. subst root.
    rewrite append_assoc, str_from_append.
    apply Hrel. rewrite append_assoc. reflexivity.
Qed.

End WalkFacts.

(* ===================================================================== *)
(** ** Further facts about [_check] and [inspect]                          *)
(* ===================================================================== *)

Section ScanMore.

Local Open Scope list_scope.

Implicit Types (self : Inspector) (h : Heap) (k : kind).

(** A property of the heap that every turn of a loop keeps is kept by the
    loop, whether it returns or raises. *)
Lemma for_each_preserves {A} (P : Heap -> Prop) (xs : list A) body :
  (forall x h h', x ∈ xs -> P h -> final_heap (body x h) = Some h' -> P h') ->
  forall h h', P h -> final_heap (for_each xs body h) = Some h' -> P h'.
Proof.
  induction xs as [| x xs IH]; intros Hbody h h' Hh.
  - by intros [= <-].
  - rewrite for_each_cons.
    pose proof (Hbody x h) as Hx.
    destruct (body x h) as [[] h1 | e h1 |]; simpl.
    + apply IH.
      * intros y h2 h3 Hy. apply Hbody. by apply list_elem_of_further.
      * apply Hx; [apply list_elem_of_here | done | done].
    + intros [= <-]. apply Hx; [apply list_elem_of_here | done | done].
    + done.
Qed.

(** A loop whose turns all finish finishes. *)
Lemma for_each_finishes {A} (xs : list A) body :
  (forall x h, x ∈ xs -> is_Some (final_heap (body x h))) ->
  forall h, is_Some (final_heap (for_each xs body h)).
Proof.
  induction xs as [| x xs IH]; intros Hbody h; [by eexists |].
  rewrite for_each_cons.
  destruct (Hbody x h (list_elem_of_here _ _)) as [h1 Hx].
  destruct (body x h) as [[] h2 | e h2 |]; simpl in *; [| by eexists | done].
  apply IH. intros y h3 Hy. apply Hbody. by apply list_elem_of_further.
Qed.

(** The three window tests never raise. *)
Lemma window_step_no_raise self fuel k path t (x y : Z) h e h' :
  (if in_window self t then propagate self fuel k path t ;; mret x else mret y) h
  <> Raises e h'.
Proof.
  destruct (in_window self t); [| done].
  rewrite bind_unfold. unfold propagate.
  by destruct (_propagate fuel (self_dict self k h) path t).
Qed.

Lemma check_stamps_no_raise self fuel path st h e h' :
  _check_stamps self fuel path st h <> Raises e h'.
Proof.
  unfold _check_stamps. rewrite bind_unfold.
  match goal with |- context [match ?step h with _ => _ end] =>
    destruct (step h) as [c1 h1 | e1 h1 |] eqn:E1 end;
    [| by apply window_step_no_raise in E1 | done].
  rewrite bind_unfold.
  match goal with |- context [match ?step h1 with _ => _ end] =>
    destruct (step h1) as [c2 h2 | e2 h2 |] eqn:E2 end;
    [| by apply window_step_no_raise in E2 | done].
  rewrite bind_unfold.
  match goal with |- context [match ?step h2 with _ => _ end] =>
    destruct (step h2) as [c3 h3 | e3 h3 |] eqn:E3 end;
    [| by apply window_step_no_raise in E3 | done].
  done.
Qed.

(** What one turn of [_check] leaves behind. *)
Lemma check_entry_final self statfn fuel path h h' :
  final_heap (_check_entry self statfn fuel path h) = Some h' ->
  match statfn (topdir self +:+ path) with
  | inl e =>
      if caught e
      then h' = (let h1 := store_error (topdir self +:+ path) e h in
                 match errorCb self with
                 | Some cb => log_call (Called cb (topdir self +:+ path) (inl e)) h1
                 | None => h1
                 end)
      else h' = h
  | inr st =>
      exists c h2,
        _check_stamps self fuel path st h = Returns c h2
        /\ h' = match truthy c, matchesCb self with
                | true, Some cb =>
                    log_call (Called cb (topdir self +:+ path) (inr st)) h2
                | _, _ => h2
                end
  end.
Proof.
  destruct (statfn (topdir self +:+ path)) as [e | st] eqn:Hst.
  - destruct (caught e) eqn:Hc.
    + rewrite (check_entry_caught _ _ _ _ _ _ Hst Hc). by intros [= <-].
    + rewrite (check_entry_uncaught _ _ _ _ _ _ Hst Hc). by intros [= <-].
  - unfold _check_entry, _stat. rewrite Hst, bind_unfold.
    destruct (_check_stamps self fuel path st h) as [c h2 | e h2 |] eqn:E.
    + intros Hf. exists c, h2. split; [done |].
      destruct (truthy c), (matchesCb self); by injection Hf as <-.
    + by apply check_stamps_no_raise in E.
    + done.
Qed.

(** A true [candidate] comes from a stamp inside the window. *)
Lemma check_stamps_candidate_sound self fuel path st h c h' :
  _check_stamps self fuel path st h = Returns c h' ->
  truthy c = true ->
  is_Some (first_match self st).
Proof.
  intros H Hc.
  apply check_stamps_returns in H as (c1 & c2 & h1 & h2 & H1 & H2 & H3).
  unfold first_match.
  destruct H1 as [(W1 & -> & _) | (W1 & -> & _)]; rewrite W1; [by eexists |].
  destruct H2 as [(W2 & -> & _) | (W2 & -> & _)]; rewrite W2; [by eexists |].
  destruct H3 as [(W3 & -> & _) | (W3 & -> & _)]; rewrite W3; [by eexists |].
  done.
Qed.

(** With an empty window no test fires. *)
Lemma in_window_empty self t : end_ self <= start self -> in_window self t = false.
Proof.
  intros Hle. apply not_true_is_false. rewrite in_window_spec. lia.
Qed.

Lemma check_stamps_empty_window self fuel path st h :
  end_ self <= start self ->
  _check_stamps self fuel path st h = Returns 0 h.
Proof.
  intros Hle. unfold _check_stamps.
  rewrite bind_unfold, (in_window_empty _ _ Hle). simpl.
  rewrite bind_unfold, (in_window_empty _ _ Hle). simpl.
  rewrite bind_unfold, (in_window_empty _ _ Hle). done.
Qed.

(** On a path that does not begin with the separator the three window
    tests return. *)
Lemma propagate_relative_step self fuel k path stamp h :
  startswith_sep path = false ->
  (String.length path < fuel)%nat ->
  exists h', propagate self fuel k path stamp h = Returns tt h'.
Proof.
  intros Hrel Hlen. unfold propagate.
  destruct (propagate_relative_returns fuel (self_dict self k h) path stamp Hrel Hlen)
    as [d ->].
  by eexists.
Qed.

Lemma window_step_relative self fuel k path t (x y : Z) h :
  startswith_sep path = false ->
  (String.length path < fuel)%nat ->
  (if in_window self t then propagate self fuel k path t ;; mret x else mret y) h
  <> Running.
Proof.
  intros Hrel Hlen. destruct (in_window self t); [| done].
  rewrite bind_unfold.
  by destruct (propagate_relative_step self fuel k path t h Hrel Hlen) as [h1 ->].
Qed.

Lemma check_stamps_relative self fuel path st h :
  startswith_sep path = false ->
  (String.length path < fuel)%nat ->
  exists c h', _check_stamps self fuel path st h = Returns c h'.
Proof.
  intros Hrel Hlen. unfold _check_stamps. rewrite bind_unfold.
  match goal with |- context [match ?step h with _ => _ end] =>
    destruct (step h) as [c1 h1 | e1 h1 |] eqn:E1 end;
    [| by apply window_step_no_raise in E1
     | by apply window_step_relative in E1].
  rewrite bind_unfold.
  match goal with |- context [match ?step h1 with _ => _ end] =>
    destruct (step h1) as [c2 h2 | e2 h2 |] eqn:E2 end;
    [| by apply window_step_no_raise in E2
     | by apply window_step_relative in E2].
  rewrite bind_unfold.
  match goal with |- context [match ?step h2 with _ => _ end] =>
    destruct (step h2) as [c3 h3 | e3 h3 |] eqn:E3 end;
    [| by apply window_step_no_raise in E3
     | by apply window_step_relative in E3].
  by do 2 eexists.
Qed.

(** On the empty map, from a path that begins with the separator, a call
    that returns has written nothing. *)
Lemma propagate_absolute_empty fuel path stamp d :
  startswith_sep path = true ->
  _propagate fuel ∅ path stamp = Some d ->
  d = ∅.
Proof.
  intros Habs H.
  destruct (Z.lt_ge_cases stamp (-1)) as [Hlt | Hge].
  - apply (propagate_below_sentinel_noop _ _ _ _ _ ltac:(by intros ??; rewrite lookup_empty) Hlt H).
  - rewrite propagate_absolute_diverges in H; [done | done | done |].
    intros q v. by rewrite lookup_empty.
Qed.

End ScanMore.

(* ===================================================================== *)
(** ** Further properties: [_propagate]                                    *)
(* ===================================================================== *)

(** X1.  A call of [_propagate] that returns removes no key and lowers no
    value, and every entry of the result is either the entry it was or
    holds the stamp of the call. *)
Theorem propagate_only_raises_to_stamp fuel dest path stamp dest' :
  _propagate fuel dest path stamp = Some dest' ->
  (forall q v, dest !! q = Some v -> exists v', dest' !! q = Some v' /\ v <= v')
  /\ (forall q, dest' !! q = dest !! q \/ dest' !! q = Some stamp).
Proof.
  intros H. split.
  - intros q v. by apply (propagate_grows fuel dest path stamp dest').
  - revert dest path H.
    induction fuel as [| fuel IH]; intros dest path H q; [done |].
    apply propagate_inv in H as [[_ ->] | [(_ & _ & ->) | (_ & _ & Hrec)]];
      [by left | by left |].
    destruct (IH _ _ Hrec q) as [Hsame | Hst]; [| by right].
    rewrite Hsame. destruct (decide (path = q)) as [-> | Hpq].
    + right. apply lookup_insert_eq.
    + left. by apply lookup_insert_ne.
Qed.

Lemma propagate_only_raises_to_stamp_witness :
  let dest : dict := <["a" := 9]> (<["a/b" := 3]> ∅) in
  let dest' : dict := <["a" := 9]> (<["a/b" := 7]> ∅) in
  _propagate 8 dest "a/b" 7 = Some dest'
  /\ (forall q v, dest !! q = Some v -> exists v', dest' !! q = Some v' /\ v <= v')
  /\ (forall q, dest' !! q = dest !! q \/ dest' !! q = Some 7).
Proof.
  intros dest dest'.
  assert (H : _propagate 8 dest "a/b" 7 = Some dest') by (vm_compute; reflexivity).
  split; [exact H |].
  exact (propagate_only_raises_to_stamp 8 dest "a/b" 7 dest' H).
Defined.

(** X2.  A call of [_propagate] that returns writes no key other than its
    path and the ancestors of its path, and never the empty string. *)
Theorem propagate_writes_only_the_chain fuel dest path stamp dest' q :
  _propagate fuel dest path stamp = Some dest' ->
  q = "" \/ (q <> path /\ ~ ancestor q path) ->
  dest' !! q = dest !! q.
Proof. intros H Hq. exact (propagate_frame fuel dest path stamp dest' q H Hq). Qed.

Lemma propagate_writes_only_the_chain_witness :
  let dest : dict := <["a/" := 5]> ∅ in
  let dest' : dict := <["a" := 7]> (<["a/f" := 7]> (<["a/" := 5]> ∅)) in
  _propagate 8 dest "a/f" 7 = Some dest'
  /\ ("a/" = "" \/ ("a/" <> "a/f" /\ ~ ancestor "a/" "a/f"))
  /\ dest' !! "a/" = dest !! "a/".
Proof.
  intros dest dest'.
  assert (H : _propagate 8 dest "a/f" 7 = Some dest') by (vm_compute; reflexivity).
  assert (Hq : "a/" = "" \/ ("a/" <> "a/f" /\ ~ ancestor "a/" "a/f")).
  { right. split; [discriminate | exact trailing_sep_key_is_no_ancestor]. }
  split; [exact H |]. split; [exact Hq |].
  exact (propagate_writes_only_the_chain 8 dest "a/f" 7 dest' "a/" H Hq).
Defined.

(** X3.  From a path that does not begin with the separator a call of
    [_propagate] returns, after at most one turn of the loop per character
    and one more; the result is the same for every larger number of
    turns. *)
Theorem propagate_relative_path_returns dest path stamp :
  startswith_sep path = false ->
  exists dest',
    forall fuel, (String.length path < fuel)%nat ->
                 _propagate fuel dest path stamp = Some dest'.
Proof.
  intros Hrel.
  destruct (propagate_relative_returns (S (String.length path)) dest path stamp
              Hrel ltac:(lia)) as [dest' H].
  exists dest'. intros fuel Hlen.
  apply (propagate_fuel_mono (S (String.length path))); [lia | exact H].
Qed.

Lemma propagate_relative_path_returns_witness :
  startswith_sep "a/b/c" = false
  /\ exists dest',
       forall fuel, (String.length "a/b/c" < fuel)%nat ->
                    _propagate fuel ∅ "a/b/c" 7 = Some dest'.
Proof.
  split; [reflexivity |].
  exact (propagate_relative_path_returns ∅ "a/b/c" 7 eq_refl).
Defined.

(** X4.  From a path that begins with the separator a call of [_propagate]
    never returns when its stamp is at least -1 and no entry of the map
    holds more than the stamp: the loop never reaches the empty string and
    the early exit never fires. *)
Theorem propagate_absolute_path_never_returns dest path stamp :
  startswith_sep path = true ->
  -1 <= stamp ->
  (forall q v, dest !! q = Some v -> v <= stamp) ->
  forall fuel, _propagate fuel dest path stamp = None.
Proof.
  intros Habs Hst Hle fuel. by apply propagate_absolute_diverges.
Qed.

Lemma propagate_absolute_path_never_returns_witness :
  let dest : dict := <["a" := 3]> ∅ in
  startswith_sep "/a/f" = true
  /\ -1 <= 5
  /\ (forall q v, dest !! q = Some v -> v <= 5)
  /\ forall fuel, _propagate fuel dest "/a/f" 5 = None.
Proof.
  intros dest.
  assert (Hle : forall q v, dest !! q = Some v -> v <= 5).
  { intros q v. unfold dest. destruct (decide ("a" = q)) as [<- | Hq].
    - rewrite lookup_insert_eq. intros [= <-]. lia.
    - rewrite lookup_insert_ne by done. by rewrite lookup_empty. }
  split; [reflexivity |]. split; [lia |]. split; [exact Hle |].
  exact (propagate_absolute_path_never_returns dest "/a/f" 5 eq_refl ltac:(lia) Hle).
Defined.

(** X5.  In a map built from the empty map by [_propagate] calls the empty
    string is no key and no value is below the sentinel -1: a stamp below
    -1 is never stored. *)
Theorem propagate_all_respects_sentinel fuel cs m :
  propagate_all fuel cs ∅ = Some m ->
  m !! "" = None /\ forall p v, m !! p = Some v -> -1 <= v.
Proof.
  intros H.
  destruct (propagate_all_parent_closed fuel cs ∅ m parent_closed_empty H)
    as [Hr Hs _].
  by split.
Qed.

Lemma propagate_all_respects_sentinel_witness :
  let m : dict := <["a" := 4]> (<["a/b" := 4]> ∅) in
  propagate_all 8 [("a/b", 4); ("a/c", -5)] ∅ = Some m
  /\ m !! "" = None /\ forall p v, m !! p = Some v -> -1 <= v.
Proof.
  intros m.
  assert (H : propagate_all 8 [("a/b", 4); ("a/c", -5)] ∅ = Some m)
    by (vm_compute; reflexivity).
  split; [exact H |].
  exact (propagate_all_respects_sentinel 8 _ m H).
Defined.

(** X6.  In a map built from the empty map by [_propagate] calls every
    non-empty ancestor of a key is a key as well. *)
Theorem propagate_all_keys_ancestor_closed fuel cs m p a :
  propagate_all fuel cs ∅ = Some m ->
  is_Some (m !! p) ->
  ancestor a p ->
  a <> "" ->
  is_Some (m !! a).
Proof.
  intros H Hp Ha Hne.
  eapply parent_closed_ancestor_present; [| exact Ha | exact Hne | exact Hp].
  exact (propagate_all_parent_closed fuel cs ∅ m parent_closed_empty H).
Qed.

Lemma propagate_all_keys_ancestor_closed_witness :
  let m : dict := <["a" := 4]> (<["a/b" := 4]> (<["a/b/c" := 4]> ∅)) in
  propagate_all 8 [("a/b/c", 4)] ∅ = Some m
  /\ is_Some (m !! "a/b/c")
  /\ ancestor "a" "a/b/c"
  /\ "a" <> ""
  /\ is_Some (m !! "a").
Proof.
  intros m.
  assert (H : propagate_all 8 [("a/b/c", 4)] ∅ = Some m) by (vm_compute; reflexivity).
  assert (Hp : is_Some (m !! "a/b/c")) by (exists 4; vm_compute; reflexivity).
  assert (Ha : ancestor "a" "a/b/c")
    by (apply ancestor_up; exact (ancestor_parent "a/b")).
  assert (Hne : "a" <> "") by discriminate.
  split; [exact H |]. split; [exact Hp |]. split; [exact Ha |]. split; [exact Hne |].
  exact (propagate_all_keys_ancestor_closed 8 _ m "a/b/c" "a" H Hp Ha Hne).
Defined.

(** X7.  On a map built from the empty map by [_propagate] calls, a further
    call that returns computes a pointwise maximum: with a stamp of at
    least -1 the path and each of its non-empty ancestors end with the
    larger of the stamp and their old value (the stamp itself where there
    was none), every other key is untouched, and a stamp below -1 changes
    nothing.  The early exit therefore loses no update. *)
Theorem propagate_is_pointwise_max fuel cs m fuel' path stamp m' :
  propagate_all fuel cs ∅ = Some m ->
  _propagate fuel' m path stamp = Some m' ->
  (stamp < -1 -> m' = m)
  /\ (-1 <= stamp ->
      forall q, q = path \/ ancestor q path -> q <> "" ->
                m' !! q = Some (Z.max stamp (dict_get m q (-1))))
  /\ (forall q, q <> path -> ~ ancestor q path -> m' !! q = m !! q).
Proof.
  intros Hm H.
  pose proof (propagate_all_parent_closed fuel cs ∅ m parent_closed_empty Hm) as Hpc.
  split; [| split].
  - intros Hlt. eapply propagate_below_sentinel_noop; [apply Hpc | exact Hlt | exact H].
  - intros Hge q Hq Hne.
    eapply propagate_chain_max; [| exact Hge | exact H | exact Hq | exact Hne].
    by apply parent_closed_enter.
  - intros q Hq Hanc. eapply propagate_frame; [exact H |]. right. by split.
Qed.

Lemma propagate_is_pointwise_max_witness :
  let m : dict := <["a" := 9]> (<["a/x" := 9]> (<["a/b" := 3]> ∅)) in
  let m' : dict := <["a/b" := 7]> m in
  propagate_all 8 [("a/b", 3); ("a/x", 9)] ∅ = Some m
  /\ _propagate 8 m "a/b" 7 = Some m'
  /\ -1 <= 7
  /\ ("a" = "a/b" \/ ancestor "a" "a/b")
  /\ "a" <> ""
  /\ m' !! "a" = Some (Z.max 7 (dict_get m "a" (-1))).
Proof.
  intros m m'.
  assert (Hm : propagate_all 8 [("a/b", 3); ("a/x", 9)] ∅ = Some m)
    by (vm_compute; reflexivity).
  assert (H : _propagate 8 m "a/b" 7 = Some m') by (vm_compute; reflexivity).
  assert (Hge : -1 <= 7) by lia.
  assert (Hq : "a" = "a/b" \/ ancestor "a" "a/b")
    by (right; exact (ancestor_parent "a/b")).
  assert (Hne : "a" <> "") by discriminate.
  split; [exact Hm |]. split; [exact H |]. split; [exact Hge |].
  split; [exact Hq |]. split; [exact Hne |].
  exact (proj1 (proj2 (propagate_is_pointwise_max 8 _ m 8 "a/b" 7 m' Hm H))
               Hge "a" Hq Hne).
Defined.

(** X8.  [_propagate] calls commute: on a map built from the empty map by
    [_propagate] calls, two further calls that return leave the same map
    in either order. *)
Theorem propagate_calls_commute fuel0 cs fuel m p1 t1 p2 t2 m1 m12 m2 m21 :
  propagate_all fuel0 cs ∅ = Some m ->
  _propagate fuel m p1 t1 = Some m1 ->
  _propagate fuel m1 p2 t2 = Some m12 ->
  _propagate fuel m p2 t2 = Some m2 ->
  _propagate fuel m2 p1 t1 = Some m21 ->
  m12 = m21.
Proof.
  intros Hm. apply propagate_commute_closed.
  exact (propagate_all_parent_closed fuel0 cs ∅ m parent_closed_empty Hm).
Qed.

Lemma propagate_calls_commute_witness :
  let m : dict := <["r" := 2]> (<["r/a" := 2]> ∅) in
  let m1 : dict := <["r" := 9]> (<["r/a" := 9]> (<["r/a/f" := 9]> ∅)) in
  let m2 : dict := <["r" := 5]> (<["r/b" := 5]> (<["r/b/g" := 5]> (<["r/a" := 2]> ∅))) in
  let m12 : dict :=
    <["r/b" := 5]> (<["r/b/g" := 5]>
      (<["r" := 9]> (<["r/a" := 9]> (<["r/a/f" := 9]> ∅)))) in
  let m21 : dict :=
    <["r" := 9]> (<["r/a" := 9]> (<["r/a/f" := 9]>
      (<["r/b" := 5]> (<["r/b/g" := 5]> ∅)))) in
  propagate_all 8 [("r/a", 2)] ∅ = Some m
  /\ _propagate 8 m "r/a/f" 9 = Some m1
  /\ _propagate 8 m1 "r/b/g" 5 = Some m12
  /\ _propagate 8 m "r/b/g" 5 = Some m2
  /\ _propagate 8 m2 "r/a/f" 9 = Some m21
  /\ m12 = m21.
Proof.
  intros m m1 m2 m12 m21.
  assert (Hm : propagate_all 8 [("r/a", 2)] ∅ = Some m) by (vm_compute; reflexivity).
  assert (H1 : _propagate 8 m "r/a/f" 9 = Some m1) by (vm_compute; reflexivity).
  assert (H12 : _propagate 8 m1 "r/b/g" 5 = Some m12) by (vm_compute; reflexivity).
  assert (H2 : _propagate 8 m "r/b/g" 5 = Some m2) by (vm_compute; reflexivity).
  assert (H21 : _propagate 8 m2 "r/a/f" 9 = Some m21) by (vm_compute; reflexivity).
  split; [exact Hm |]. split; [exact H1 |]. split; [exact H12 |].
  split; [exact H2 |]. split; [exact H21 |].
  exact (propagate_calls_commute 8 _ 8 m "r/a/f" 9 "r/b/g" 5 m1 m12 m2 m21
           Hm H1 H12 H2 H21).
Defined.

(* ===================================================================== *)
(** ** Further properties: [_check] and [inspect]                          *)
(* ===================================================================== *)

Section ScanProperties.

Local Open Scope list_scope.

Implicit Types (self : Inspector) (h : Heap) (k : kind).

Lemma log_call_dict self k ev h : self_dict self k (log_call ev h) = self_dict self k h.
Proof. by destruct k. Qed.

Lemma store_error_dict self k fp e h :
  self_dict self k (store_error fp e h) = self_dict self k h.
Proof. by destruct k. Qed.

(** What one turn of [_check] does to the aggregate dictionaries. *)
Lemma check_entry_dicts self statfn fuel path h h' k :
  final_heap (_check_entry self statfn fuel path h) = Some h' ->
  self_dict self k h' = self_dict self k h
  \/ exists t, _propagate fuel (self_dict self k h) path t = Some (self_dict self k h').
Proof.
  intros H. apply check_entry_final in H.
  destruct (statfn (topdir self +:+ path)) as [e | st].
  - left. destruct (caught e); subst h'; [| done].
    destruct (errorCb self); by rewrite ?log_call_dict, store_error_dict.
  - destruct H as (c & h2 & Hst & ->).
    assert (Hsame : forall h0,
               self_dict self k
                 (match truthy c, matchesCb self with
                  | true, Some cb =>
                      log_call (Called cb (topdir self +:+ path) (inr st)) h0
                  | _, _ => h0
                  end) = self_dict self k h0).
    { intros h0. destruct (truthy c), (matchesCb self); by rewrite ?log_call_dict. }
    rewrite Hsame.
    apply (check_stamps_dicts _ _ _ _ _ _ _ k) in Hst as (Hin & Hout & _ & _).
    destruct (in_window self (stamp_of k st)); [right | left]; eauto.
Qed.

(** X9.  A check of paths that do not begin with the separator comes to an
    end, by returning or by raising, once the loop of [_propagate] is
    given more turns than the longest path has characters. *)
Theorem check_relative_paths_finishes self statfn fuel paths h :
  Forall (fun p => startswith_sep p = false /\ (String.length p < fuel)%nat) paths ->
  is_Some (final_heap (_check self statfn fuel paths h)).
Proof.
  intros Hall. unfold _check. apply for_each_finishes.
  intros path h0 Hin.
  rewrite Forall_forall in Hall. destruct (Hall path Hin) as [Hrel Hlen].
  unfold _check_entry, _stat.
  destruct (statfn (topdir self +:+ path)) as [e | st].
  - destruct (caught e); [| by eexists].
    rewrite bind_unfold. unfold update. destruct (errorCb self); by eexists.
  - rewrite bind_unfold.
    destruct (check_stamps_relative self fuel path st h0 Hrel Hlen) as (c & h1 & ->).
    destruct (truthy c), (matchesCb self); by eexists.
Qed.

Lemma check_relative_paths_finishes_witness :
  let self := mk_inspector "/r/" 0 10 None None in
  Forall (fun p => startswith_sep p = false /\ (String.length p < 8)%nat)
         ["a/"; "a/f"; "a/g"]
  /\ is_Some (final_heap (_check self Examples.stat_plain 8 ["a/"; "a/f"; "a/g"]
                                 module_loaded)).
Proof.
  intros self.
  assert (H : Forall (fun p => startswith_sep p = false /\ (String.length p < 8)%nat)
                     ["a/"; "a/f"; "a/g"]).
  { repeat constructor; simpl; lia. }
  split; [exact H |].
  exact (check_relative_paths_finishes self Examples.stat_plain 8 _ module_loaded H).
Defined.

(** X10.  A scan of a top directory that is given without a trailing
    separator, started with empty aggregate dictionaries, can only end
    with the three dictionaries still empty: every path it checks begins
    with the separator, and the first stamp it would record keeps
    [_propagate] in its loop. *)
Theorem scan_without_trailing_sep_records_nothing self fs statfn fuel h h' :
  topdir self <> "" ->
  endswith_sep (topdir self) = false ->
  dir_names_relative fs = true ->
  (forall k, self_dict self k h = ∅) ->
  final_heap (inspect self fs statfn fuel h) = Some h' ->
  forall k, self_dict self k h' = ∅.
Proof.
  intros Hne Hend Hwf Hempty. rewrite inspect_checked_paths. unfold _check.
  pose proof (checked_paths_absolute _ _ Hne Hend Hwf) as Habs.
  rewrite Forall_forall in Habs.
  apply (for_each_preserves (fun h0 => forall k, self_dict self k h0 = ∅));
    [| exact Hempty].
  intros path h0 h1 Hin Hh0 Hfin k.
  destruct (check_entry_dicts _ _ _ _ _ _ k Hfin) as [-> | [t Ht]]; [apply Hh0 |].
  rewrite Hh0 in Ht.
  eapply propagate_absolute_empty; [apply (Habs path Hin) | exact Ht].
Qed.

Lemma scan_without_trailing_sep_records_nothing_witness :
  let self := mk_inspector "/r" (-10) 10 None None in
  let statfn := Examples.table_stat [("/r/", inr (mk_stat (-5) 100 100));
                                     ("/r/a/", inr Examples.old)] in
  let h' := mk_heap ∅ ∅ ∅ (<["/r/a/g" := FileNotFoundError]>
                             (<["/r/a/f" := FileNotFoundError]> ∅)) [] in
  topdir self <> ""
  /\ endswith_sep (topdir self) = false
  /\ dir_names_relative Examples.tree_r = true
  /\ (forall k, self_dict self k module_loaded = ∅)
  /\ final_heap (inspect self Examples.tree_r statfn 8 module_loaded) = Some h'
  /\ forall k, self_dict self k h' = ∅.
Proof.
  intros self statfn h'.
  assert (H1 : topdir self <> "") by discriminate.
  assert (H2 : endswith_sep (topdir self) = false) by reflexivity.
  assert (H3 : dir_names_relative Examples.tree_r = true) by reflexivity.
  assert (H4 : forall k, self_dict self k module_loaded = ∅) by (by intros []).
  assert (H5 : final_heap (inspect self Examples.tree_r statfn 8 module_loaded)
               = Some h') by (vm_compute; reflexivity).
  split; [exact H1 |]. split; [exact H2 |]. split; [exact H3 |].
  split; [exact H4 |]. split; [exact H5 |].
  exact (scan_without_trailing_sep_records_nothing self Examples.tree_r statfn 8
           module_loaded h' H1 H2 H3 H4 H5).
Defined.

(** X11.  With a window whose end is not after its start (as the
    constructor stores it when the bounds are given in reversed order, or
    with a window that is not positive) no stamp matches: the scan comes
    to an end whatever the number of turns allowed to [_propagate], the
    three aggregate dictionaries are as they were, and the only callback
    calls it makes are calls of the error callback. *)
Theorem scan_with_empty_window_finds_nothing self fs statfn fuel h :
  end_ self <= start self ->
  exists h',
    final_heap (inspect self fs statfn fuel h) = Some h'
    /\ (forall k, self_dict self k h' = self_dict self k h)
    /\ exists new,
         calls h' = calls h ++ new
         /\ Forall (fun ev => match ev with
                              | Called _ _ (inl _) => True
                              | Called _ _ (inr _) => False
                              end) new.
Proof.
  intros Hle. rewrite inspect_checked_paths. unfold _check.
  set (only_errors := Forall (fun ev => match ev with
                                        | Called _ _ (inl _) => True
                                        | Called _ _ (inr _) => False
                                        end)).
  assert (Hentry : forall path h0,
             exists h1,
               final_heap (_check_entry self statfn fuel path h0) = Some h1
               /\ (forall k, self_dict self k h1 = self_dict self k h0)
               /\ exists new, calls h1 = calls h0 ++ new /\ only_errors new).
  { intros path h0. unfold _check_entry, _stat.
    destruct (statfn (topdir self +:+ path)) as [e | st].
    - destruct (caught e).
      + rewrite bind_unfold. unfold update. destruct (errorCb self) as [cb |].
        * eexists. split; [reflexivity |]. split; [by intros [] |].
          eexists [_]. split; [reflexivity |]. by repeat constructor.
        * eexists. split; [reflexivity |]. split; [by intros [] |].
          exists []. split; [by rewrite app_nil_r | constructor].
      + eexists. split; [reflexivity |]. split; [done |].
        exists []. split; [by rewrite app_nil_r | constructor].
    - rewrite bind_unfold, (check_stamps_empty_window _ _ _ _ _ Hle).
      eexists. split; [reflexivity |]. split; [done |].
      exists []. split; [by rewrite app_nil_r | constructor]. }
  destruct (for_each_finishes (checked_paths (topdir self) fs)
              (_check_entry self statfn fuel)
              (fun x h0 _ => let '(ex_intro _ h1 (conj Hf _)) := Hentry x h0 in
                             ex_intro _ h1 Hf) h) as [h' Hfin].
  exists h'. split; [exact Hfin |].
  apply (for_each_preserves
           (fun h0 => (forall k, self_dict self k h0 = self_dict self k h)
                      /\ exists new, calls h0 = calls h ++ new /\ only_errors new)
           (checked_paths (topdir self) fs) (_check_entry self statfn fuel))
    with (h := h); [| | exact Hfin].
  - intros path h0 h1 _ [Hd (new0 & Hc0 & Hn0)] Hf.
    destruct (Hentry path h0) as (h1' & Hf' & Hd' & new1 & Hc1 & Hn1).
    rewrite Hf in Hf'. injection Hf' as <-. split.
    + intros k. by rewrite Hd', Hd.
    + exists (new0 ++ new1). rewrite Hc1, Hc0, app_assoc. split; [done |].
      by apply Forall_app_2.
  - split; [done |]. exists []. split; [by rewrite app_nil_r | constructor].
Qed.

Lemma scan_with_empty_window_finds_nothing_witness :
  let self := mk_inspector "/r/" 10 5 (Some Examples.on_match) None in
  end_ self <= start self
  /\ exists h',
       final_heap (inspect self Examples.tree_r Examples.stat_plain 0 module_loaded)
       = Some h'
       /\ (forall k, self_dict self k h' = self_dict self k module_loaded)
       /\ exists new,
            calls h' = calls module_loaded ++ new
            /\ Forall (fun ev => match ev with
                                 | Called _ _ (inl _) => True
                                 | Called _ _ (inr _) => False
                                 end) new.
Proof.
  intros self.
  assert (H : end_ self <= start self) by (simpl; lia).
  split; [exact H |].
  exact (scan_with_empty_window_finds_nothing self Examples.tree_r
           Examples.stat_plain 0 module_loaded H).
Defined.

(** What one turn of [_check] that returns does to [errors]. *)
Lemma check_entry_errors self statfn fuel path h h' :
  _check_entry self statfn fuel path h = Returns tt h' ->
  Inspector_errors h' =
    match statfn (topdir self +:+ path) with
    | inl e => <[topdir self +:+ path := e]> (Inspector_errors h)
    | inr _ => Inspector_errors h
    end.
Proof.
  intros H.
  assert (Hf : final_heap (_check_entry self statfn fuel path h) = Some h')
    by (by rewrite H).
  apply check_entry_final in Hf.
  destruct (statfn (topdir self +:+ path)) as [e | st] eqn:Hst.
  - destruct (caught e) eqn:Hc.
    + subst h'. by destruct (errorCb self).
    + by rewrite (check_entry_uncaught _ _ _ _ _ _ Hst Hc) in H.
  - destruct Hf as (c & h2 & Hs & ->).
    apply (check_stamps_dicts _ _ _ _ _ _ _ Created) in Hs as (_ & _ & He & _).
    rewrite <- He. by destruct (truthy c), (matchesCb self).
Qed.

(** X12.  When a check returns, [errors] holds, under [topdir + path] for
    every checked path whose probe failed, the exception of that probe,
    and is unchanged at every other key. *)
Theorem check_records_exactly_the_failed_probes self statfn fuel paths h h' key :
  _check self statfn fuel paths h = Returns tt h' ->
  Inspector_errors h' !! key =
    match statfn key with
    | inl e =>
        if bool_decide (key ∈ map (String.append (topdir self)) paths)
        then Some e
        else Inspector_errors h !! key
    | inr _ => Inspector_errors h !! key
    end.
Proof.
  revert h. induction paths as [| path paths IH]; intros h H.
  - injection H as <-. by destruct (statfn key).
  - rewrite check_cons in H.
    destruct (_check_entry self statfn fuel path h) as [[] h1 | |] eqn:E;
      [| done | done].
    rewrite (IH h1 H). apply check_entry_errors in E. rewrite E. simpl map.
    destruct (statfn key) as [e | st] eqn:Hk.
    + destruct (decide (key = topdir self +:+ path)) as [-> | Hne].
      * rewrite Hk, lookup_insert_eq.
        rewrite (bool_decide_eq_true_2 (_ ∈ _ :: _)) by apply list_elem_of_here.
        by destruct (bool_decide _).
      * assert (Hcons : bool_decide (key ∈ (topdir self +:+ path)
                                       :: map (String.append (topdir self)) paths)
                        = bool_decide (key ∈ map (String.append (topdir self)) paths)).
        { apply bool_decide_ext. rewrite elem_of_cons. tauto. }
        rewrite Hcons.
        destruct (bool_decide (key ∈ map (String.append (topdir self)) paths));
          [done |].
        destruct (statfn (topdir self +:+ path)); [| done].
        by rewrite lookup_insert_ne.
    + destruct (statfn (topdir self +:+ path)) as [e' | st'] eqn:Hp; [| done].
      rewrite lookup_insert_ne; [done |]. intros <-. congruence.
Qed.

Lemma check_records_exactly_the_failed_probes_witness :
  let self := mk_inspector "/r/" 0 10 None None in
  let h' := mk_heap (<["a" := 7]> (<["a/f" := 7]> ∅)) ∅ ∅
                    (<["/r/a/g" := FileNotFoundError]> ∅) [] in
  _check self Examples.stat_plain 8 ["a/f"; "a/g"] module_loaded = Returns tt h'
  /\ Inspector_errors h' !! "/r/a/g" =
       match Examples.stat_plain "/r/a/g" with
       | inl e =>
           if bool_decide ("/r/a/g" ∈ map (String.append (topdir self)) ["a/f"; "a/g"])
           then Some e
           else Inspector_errors module_loaded !! "/r/a/g"
       | inr _ => Inspector_errors module_loaded !! "/r/a/g"
       end.
Proof.
  intros self h'.
  assert (H : _check self Examples.stat_plain 8 ["a/f"; "a/g"] module_loaded
              = Returns tt h') by (vm_compute; reflexivity).
  split; [exact H |].
  exact (check_records_exactly_the_failed_probes self Examples.stat_plain 8
           ["a/f"; "a/g"] module_loaded h' "/r/a/g" H).
Defined.

Lemma call_is_justified_mono self statfn paths paths' ev :
  (forall p, p ∈ paths -> p ∈ paths') ->
  call_is_justified self statfn paths ev ->
  call_is_justified self statfn paths' ev.
Proof.
  intros Hsub. destruct ev as [cb fp arg]. simpl.
  intros [(p & Hp & ->) H]. split; [| exact H]. exists p. auto.
Qed.

(** The callback calls of one turn of [_check]. *)
Lemma check_entry_calls self statfn fuel path h h' :
  final_heap (_check_entry self statfn fuel path h) = Some h' ->
  exists new,
    calls h' = calls h ++ new
    /\ (length new <= 1)%nat
    /\ Forall (call_is_justified self statfn [path]) new.
Proof.
  intros H. apply check_entry_final in H.
  assert (Hin : exists p, p ∈ [path] /\ topdir self +:+ path = topdir self +:+ p).
  { exists path. split; [apply list_elem_of_here | done]. }
  destruct (statfn (topdir self +:+ path)) as [e | st] eqn:Hst.
  - destruct (caught e) eqn:Hc; subst h'.
    + destruct (errorCb self) as [cb |] eqn:Hcb.
      * exists [Called cb (topdir self +:+ path) (inl e)].
        split; [done |]. split; [simpl; lia |].
        constructor; [| constructor]. simpl. auto.
      * exists []. split; [by rewrite app_nil_r |]. split; [simpl; lia | constructor].
    + exists []. split; [by rewrite app_nil_r |]. split; [simpl; lia | constructor].
  - destruct H as (c & h2 & Hs & ->).
    pose proof (check_stamps_dicts _ _ _ _ _ _ _ Created Hs) as (_ & _ & _ & Hcalls).
    destruct (truthy c) eqn:Hc, (matchesCb self) as [cb |] eqn:Hcb.
    + exists [Called cb (topdir self +:+ path) (inr st)].
      split; [simpl; by rewrite Hcalls |]. split; [simpl; lia |].
      constructor; [| constructor]. simpl. split; [done |]. split; [done |].
      split; [done |]. by eapply check_stamps_candidate_sound.
    + exists []. split; [by rewrite app_nil_r |]. split; [simpl; lia | constructor].
    + exists []. split; [by rewrite app_nil_r |]. split; [simpl; lia | constructor].
    + exists []. split; [by rewrite app_nil_r |]. split; [simpl; lia | constructor].
Qed.

(** X13.  The callback calls of a check that has come to an end extend the
    log by at most one call per checked path, and every one of them is
    justified: it is made for a checked path, with what the probe of that
    path gave; the error callback only receives exceptions that the
    [except] clause catches, and the match callback only entries with at
    least one stamp inside the window. *)
Theorem check_makes_only_justified_calls self statfn fuel paths h h' :
  final_heap (_check self statfn fuel paths h) = Some h' ->
  exists new,
    calls h' = calls h ++ new
    /\ (length new <= length paths)%nat
    /\ Forall (call_is_justified self statfn paths) new.
Proof.
  revert h. induction paths as [| path paths IH]; intros h H.
  - injection H as <-. exists []. split; [by rewrite app_nil_r |].
    split; [done | constructor].
  - rewrite check_cons in H.
    destruct (_check_entry self statfn fuel path h) as [[] h1 | e h1 |] eqn:E;
      [| | done].
    + destruct (check_entry_calls self statfn fuel path h h1) as (n1 & Hc1 & Hl1 & Hj1);
        [by rewrite E |].
      destruct (IH h1 H) as (n2 & Hc2 & Hl2 & Hj2).
      exists (n1 ++ n2). rewrite Hc2, Hc1, app_assoc. split; [done |].
      split; [rewrite length_app; simpl; lia |].
      apply Forall_app_2.
      * eapply Forall_impl; [exact Hj1 |]. intros ev. apply call_is_justified_mono.
        intros p ->%list_elem_of_singleton. apply list_elem_of_here.
      * eapply Forall_impl; [exact Hj2 |]. intros ev. apply call_is_justified_mono.
        intros p Hp. by apply list_elem_of_further.
    + injection H as <-.
      destruct (check_entry_calls self statfn fuel path h h1) as (n1 & Hc1 & Hl1 & Hj1);
        [by rewrite E |].
      exists n1. split; [done |]. split; [simpl; lia |].
      eapply Forall_impl; [exact Hj1 |]. intros ev. apply call_is_justified_mono.
      intros p ->%list_elem_of_singleton. apply list_elem_of_here.
Qed.

Lemma check_makes_only_justified_calls_witness :
  let self :=
    mk_inspector "/r/" 0 10 (Some Examples.on_match) (Some Examples.on_error) in
  let h' :=
    mk_heap (<["a" := 7]> (<["a/f" := 7]> ∅)) ∅ ∅
            (<["/r/a/g" := FileNotFoundError]> ∅)
            [Called Examples.on_match "/r/a/f" (inr (mk_stat 7 100 100));
             Called Examples.on_error "/r/a/g" (inl FileNotFoundError)] in
  final_heap (_check self Examples.stat_plain 8 ["a/f"; "a/g"] module_loaded) = Some h'
  /\ exists new,
       calls h' = calls module_loaded ++ new
       /\ (length new <= length ["a/f"; "a/g"])%nat
       /\ Forall (call_is_justified self Examples.stat_plain ["a/f"; "a/g"]) new.
Proof.
  intros self h'.
  assert (H : final_heap (_check self Examples.stat_plain 8 ["a/f"; "a/g"]
                                 module_loaded) = Some h')
    by (vm_compute; reflexivity).
  split; [exact H |].
  exact (check_makes_only_justified_calls self Examples.stat_plain 8
           ["a/f"; "a/g"] module_loaded h' H).
Defined.



End ScanProperties.

(* ===================================================================== *)
(** ** Further properties: [__init__]                                      *)
(* ===================================================================== *)

(** X15.  The constructor returns an instance exactly when the top
    directory exists and either both bounds are given, or one bound is
    given together with the window; the instance then holds the bounds as
    given, or the given bound with the other one computed as
    [start + window] or [end - window], next to the top directory and the
    two callbacks. *)
Theorem init_returns_exactly exists_ topdir s e w cbm cbe self :
  __init__ exists_ topdir s e w cbm cbe = inr self <->
  exists_ topdir = true
  /\ exists lo hi,
       self = mk_inspector topdir lo hi cbm cbe
       /\ ((s = Some lo /\ e = Some hi)
           \/ (s = Some lo /\ e = None /\ exists x, w = Some x /\ hi = lo + x)
           \/ (s = None /\ e = Some hi /\ exists x, w = Some x /\ lo = hi - x)).
Proof.
  unfold __init__. split.
  - destruct (exists_ topdir); simpl; [| done]. intros H. split; [done |].
    destruct s as [s0 |], e as [e0 |], w as [w0 |]; simpl in H;
      try discriminate; injection H as <-; do 2 eexists; (split; [reflexivity |]);
      eauto 10.
  - intros [-> (lo & hi & -> & [[-> ->] | [(-> & -> & x & -> & ->) | (-> & -> & x & -> & ->)]])];
      simpl; [by destruct w | done | done].
Qed.

